(** * Fetcher: the request pipeline of [src/Fetcher.ts]

    A shallow embedding of the [Fetcher] class: option and header
    merging, the before/after hook loops, dispatch through the platform
    [fetch], JSON body parsing, response classification and
    [parseError].

    JavaScript objects used as maps (the options object, a headers
    record) are finite maps with string keys; the object spread
    [{...a, ...b}] is the union in which [b] wins.  Hooks and [fetch]
    are host code: they are given by a [Host] record, act on an abstract
    world, may throw, and may mutate the objects they are handed.  Every
    run also records the list of calls it made, so that statements about
    what was invoked, in which order and with which arguments can be
    written down. *)

From Stdlib Require Import ZArith Ascii.
From stdpp Require Import gmap strings list fin_maps pretty.

Open Scope string_scope.
Open Scope list_scope.
Set Warnings "-register-all".

(** ** Values *)

(** A parsed JSON body ([data: any]).  Objects and arrays are the
    values a callee can mutate in place. *)
Inductive Json : Type :=
| JNull
| JBool (b : bool)
| JNumber (n : Z)
| JString (s : string)
| JArray (items : list Json)
| JObject (members : list (string * Json)).

(** The platform [Headers] of a response, as its list of entries. *)
Definition ResponseHeaders : Type := list (string * string).

(** What a property of a headers object holds: a string, or, when the
    object was built by spreading an array of pairs, one of those
    pairs. *)
Inductive HeaderValue : Type :=
| Text (s : string)
| Pair (name value : string).

(** A plain headers object: the [Record<string, string>] the source
    casts request headers to, and the object its spreads build. *)
Abbreviation HeadersRecord := (gmap string HeaderValue).

(** Values stored under the keys of a [RequestInit] object.  The three
    forms of [HeadersInit] are a plain object ([VRecord]), a platform
    [Headers] instance ([VHeaders], with its entries) and an array of
    name/value pairs ([VPairs]). *)
Inductive Val : Type :=
| VUndefined
| VNull
| VString (s : string)
| VRecord (r : HeadersRecord)
| VHeaders (entries : list (string * string))
| VPairs (entries : list (string * string)).

(** The own enumerable properties of an array-like value: its elements
    under their indices, written in decimal. *)
Definition index_entries {A : Type} (elements : list A) : gmap string A :=
  list_to_map (imap (fun i x => (pretty i, x)) elements).

(** The one-character strings a string primitive is made of. *)
Fixpoint characters (s : string) : list string :=
  match s with
  | EmptyString => []
  | String c rest => String c EmptyString :: characters rest
  end.

(** [RequestInit]: an options object. *)
Abbreviation RequestInit := (gmap string Val).

(** [{...a, ...b}]: own properties of [a], overwritten by those of [b]. *)
Definition spread {V : Type} (a b : gmap string V) : gmap string V := b ∪ a.

(** [...(v as Record<string, string>)] inside an object literal, for the
    value [v] read from [o.headers].  The cast changes nothing at run
    time: the spread copies the own enumerable properties of whatever
    [v] is.  Those are the entries of a plain object; nothing for
    [undefined], [null] and a [Headers] instance (which keeps its
    entries out of its own properties); the pairs under their indices
    for an array of pairs; the characters under their indices for a
    string. *)
Definition spread_headers (v : option Val) : HeadersRecord :=
  match v with
  | Some (VRecord r) => r
  | Some (VPairs entries) => index_entries ((fun e => Pair e.1 e.2) <$> entries)
  | Some (VString s) => index_entries (Text <$> characters s)
  | Some (VHeaders _) | Some VUndefined | Some VNull | None => ∅
  end.

(** ** Errors and completions *)

(** [class FetcherError extends Error]: [data] and [headers] are
    optional ([None] is [undefined]). *)
Record FetcherError : Type := mkFetcherError {
  err_message : string;
  err_status : Z;
  err_data : option Json;
  err_headers : option ResponseHeaders
}.

(** A thrown value: either an instance of [FetcherError] or any other
    error (a native [Error], [TypeError], ...), kept with its name and
    message. *)
Inductive JsError : Type :=
| IsFetcherError (e : FetcherError)
| OtherError (name message : string).

(** How a call ends: it returns a value or throws. *)
Inductive Completion (A : Type) : Type :=
| Normal (a : A)
| Throw (e : JsError).
Arguments Normal {A} a.
Arguments Throw {A} e.

(** The platform [Response]: [ok], [status], [statusText] and [headers]
    are read-only attributes; [res_json] is what [res.json()] settles
    to (the parsed body, or a rejection). *)
Record Response : Type := mkResponse {
  res_ok : bool;
  res_status : Z;
  res_statusText : string;
  res_headers : ResponseHeaders;
  res_json : Completion Json
}.

(** [interface FetcherResponse]. *)
Record FetcherResponse : Type := mkFetcherResponse {
  env_data : Json;
  env_status : Z;
  env_headers : ResponseHeaders
}.

(** What [parseError] returns for a [FetcherError]. *)
Record ParsedError : Type := mkParsedError {
  pe_message : string;
  pe_status : Z;
  pe_data : option Json;
  pe_headers : option ResponseHeaders
}.

(** ** Hooks and the host *)

(** A hook is a function object; the registry stores references to
    them and [!==] compares references. *)
Definition HookRef : Type := nat.

(** What running a hook does: it completes (normally or by throwing),
    leaves the object it was handed in some state, and leaves the world
    in some state. *)
Record HookRun (W S : Type) : Type := mkHookRun {
  hook_completion : Completion unit;
  hook_object : S;
  hook_world : W
}.
Arguments mkHookRun {W S} _ _ _.
Arguments hook_completion {W S} _.
Arguments hook_object {W S} _.
Arguments hook_world {W S} _.

(** The host: the world hooks and the transport act on, the code behind
    each hook reference, and the platform [fetch].

    - [beforeHook h url options w]: [hook(url, mergedOptions)]; the
      resulting object state is the content of [mergedOptions] after
      the hook.
    - [afterHook h res data w]: [hook(res, data)]; the resulting object
      state is the content of [data] after the hook.
    - [fetch url options w]: the settled [fetch(url, options)]. *)
Record Host : Type := mkHost {
  World : Type;
  beforeHook : HookRef -> string -> RequestInit -> World -> HookRun World RequestInit;
  afterHook : HookRef -> Response -> Json -> World -> HookRun World Json;
  fetch : string -> RequestInit -> World -> Completion Response * World
}.

(** ** Runs *)

(** What a run does with host code, in order: each call with its
    arguments, and how it came back.  A [...Returned] event of a hook
    carries the content of the object the hook was handed, before and
    after the hook. *)
Inductive Event : Type :=
| BeforeHookCalled (h : HookRef) (url : string) (options : RequestInit)
| BeforeHookReturned (h : HookRef) (options after : RequestInit)
| BeforeHookThrew (h : HookRef) (e : JsError)
| FetchCalled (url : string) (options : RequestInit)
| FetchResolved (res : Response)
| FetchThrew (e : JsError)
| JsonRejected (e : JsError)
| AfterHookCalled (h : HookRef) (res : Response) (data : Json)
| AfterHookReturned (h : HookRef) (data after : Json)
| AfterHookThrew (h : HookRef) (e : JsError).

Record Run (W A : Type) : Type := mkRun {
  outcome : Completion A;
  final : W;
  events : list Event
}.
Arguments mkRun {W A} _ _ _.
Arguments outcome {W A} _.
Arguments final {W A} _.
Arguments events {W A} _.

(** An asynchronous computation, run to completion from a world. *)
Definition Async (W A : Type) : Type := W -> Run W A.

Definition ret {W A} (a : A) : Async W A :=
  fun w => mkRun (Normal a) w [].

Definition throw {W A} (e : JsError) : Async W A :=
  fun w => mkRun (Throw e) w [].

Definition emit {W} (ev : Event) : Async W unit :=
  fun w => mkRun (Normal tt) w [ev].

(** [await m] followed by [k]: a throw in [m] skips [k]. *)
Definition bind {W A B} (m : Async W A) (k : A -> Async W B) : Async W B :=
  fun w =>
    let r := m w in
    match outcome r with
    | Normal a =>
        let r' := k a (final r) in
        mkRun (outcome r') (final r') (events r ++ events r')
    | Throw e => mkRun (Throw e) (final r) (events r)
    end.

(** [try { m } catch (error) { handler(error) }]. *)
Definition try_catch {W A} (m : Async W A) (handler : JsError -> Async W A) : Async W A :=
  fun w =>
    let r := m w in
    match outcome r with
    | Normal a => r
    | Throw e =>
        let r' := handler e (final r) in
        mkRun (outcome r') (final r') (events r ++ events r')
    end.

Declare Scope async_scope.
Delimit Scope async_scope with async.
Notation "'let*' x ':=' m 'in' k" := (bind m (fun x => k))
  (at level 10, x name, m at level 100, k at level 200) : async_scope.
Open Scope async_scope.

(** ** The client *)

(** [class Fetcher]: its four private fields. *)
Record Fetcher : Type := mkFetcher {
  baseUrl : string;
  defaultOptions : RequestInit;
  beforeHooks : list HookRef;
  afterHooks : list HookRef
}.

(** [onBefore] / [onAfter] as given to the constructor: absent, one
    hook, or an array of hooks. *)
Inductive HookOption : Type :=
| NoHook
| OneHook (hook : HookRef)
| HookArray (hooks : list HookRef).

(** [interface FetcherOptions extends RequestInit]: [props] holds every
    own property other than [onBefore] and [onAfter], [baseUrl]
    included. *)
Record FetcherOptions : Type := mkFetcherOptions {
  props : RequestInit;
  onBefore : HookOption;
  onAfter : HookOption
}.

(** [if (hooks) list = Array.isArray(hooks) ? hooks : [hooks]], the
    list being empty to start with. *)
Definition hook_list (hooks : HookOption) : list HookRef :=
  match hooks with
  | NoHook => []
  | OneHook hook => [hook]
  | HookArray hooks => hooks
  end.

(** [constructor(options)]: [baseUrl] is [options.baseUrl || ""], and
    [defaultOptions] is the rest of [options] once [onBefore] and
    [onAfter] are taken out. *)
Definition new_Fetcher (options : FetcherOptions) : Fetcher :=
  mkFetcher (match props options !! "baseUrl" with
             | Some (VString url) => url
             | _ => ""
             end)
            (props options)
            (hook_list (onBefore options))
            (hook_list (onAfter options)).

(** *** Hook registry

    Each of these methods updates the instance and returns it; here the
    updated instance is the result. *)

Definition addBeforeHook (this : Fetcher) (hook : HookRef) : Fetcher :=
  mkFetcher (baseUrl this) (defaultOptions this)
            (beforeHooks this ++ [hook]) (afterHooks this).

Definition addAfterHook (this : Fetcher) (hook : HookRef) : Fetcher :=
  mkFetcher (baseUrl this) (defaultOptions this)
            (beforeHooks this) (afterHooks this ++ [hook]).

Definition removeBeforeHook (this : Fetcher) (hook : HookRef) : Fetcher :=
  mkFetcher (baseUrl this) (defaultOptions this)
            (filter (fun h => h ≠ hook) (beforeHooks this)) (afterHooks this).

Definition removeAfterHook (this : Fetcher) (hook : HookRef) : Fetcher :=
  mkFetcher (baseUrl this) (defaultOptions this)
            (beforeHooks this) (filter (fun h => h ≠ hook) (afterHooks this)).

Definition clearHooks (this : Fetcher) : Fetcher :=
  mkFetcher (baseUrl this) (defaultOptions this) [] [].

(** *** Calls into the host *)

(** [await hook(url, mergedOptions)]: the hook works on the options
    object itself, so the loop continues with whatever content the hook
    left in it. *)
Definition call_before_hook (host : Host) (h : HookRef) (url : string)
    (mergedOptions : RequestInit) : Async (World host) RequestInit :=
  fun w =>
    let r := beforeHook host h url mergedOptions w in
    match hook_completion r with
    | Normal _ =>
        mkRun (Normal (hook_object r)) (hook_world r)
              [BeforeHookCalled h url mergedOptions;
               BeforeHookReturned h mergedOptions (hook_object r)]
    | Throw e =>
        mkRun (Throw e) (hook_world r)
              [BeforeHookCalled h url mergedOptions; BeforeHookThrew h e]
    end.

(** [for (const hook of this.beforeHooks) await hook(url, mergedOptions)]. *)
Fixpoint run_before_hooks (host : Host) (hooks : list HookRef) (url : string)
    (mergedOptions : RequestInit) : Async (World host) RequestInit :=
  match hooks with
  | [] => ret mergedOptions
  | hook :: rest =>
      let* mergedOptions := call_before_hook host hook url mergedOptions in
      run_before_hooks host rest url mergedOptions
  end.

(** What a callee holding [data] can do to it: an object stays an
    object and an array an array, with any content; [null] and the
    other primitives cannot be changed. *)
Definition mutated_in_place (data after : Json) : Json :=
  match data, after with
  | JObject _, JObject members => JObject members
  | JArray _, JArray items => JArray items
  | _, _ => data
  end.

(** [await hook(res, data)]: [res] is read-only; [data] is shared with
    the hook, so the loop continues with the content the hook left. *)
Definition call_after_hook (host : Host) (h : HookRef) (res : Response)
    (data : Json) : Async (World host) Json :=
  fun w =>
    let r := afterHook host h res data w in
    match hook_completion r with
    | Normal _ =>
        let after := mutated_in_place data (hook_object r) in
        mkRun (Normal after) (hook_world r)
              [AfterHookCalled h res data; AfterHookReturned h data after]
    | Throw e =>
        mkRun (Throw e) (hook_world r)
              [AfterHookCalled h res data; AfterHookThrew h e]
    end.

(** [for (const hook of this.afterHooks) await hook(res, data)]. *)
Fixpoint run_after_hooks (host : Host) (hooks : list HookRef) (res : Response)
    (data : Json) : Async (World host) Json :=
  match hooks with
  | [] => ret data
  | hook :: rest =>
      let* data := call_after_hook host hook res data in
      run_after_hooks host rest res data
  end.

(** [await fetch(url, mergedOptions)]. *)
Definition call_fetch (host : Host) (url : string) (mergedOptions : RequestInit)
    : Async (World host) Response :=
  fun w =>
    match fetch host url mergedOptions w with
    | (Normal res, w') =>
        mkRun (Normal res) w' [FetchCalled url mergedOptions; FetchResolved res]
    | (Throw e, w') => mkRun (Throw e) w' [FetchCalled url mergedOptions; FetchThrew e]
    end.

(** [await res.json().catch(() => null)]. *)
Definition json_or_null {W} (res : Response) : Async W Json :=
  match res_json res with
  | Normal data => ret data
  | Throw e => let* _ := emit (JsonRejected e) in ret JNull
  end.

(** *** The request pipeline *)

(** Lines 90-99: [mergedOptions] as built before the hooks run. *)
Definition initial_options (this : Fetcher) (options : RequestInit) : RequestInit :=
  let mergedOptions := spread (defaultOptions this) options in
  <["headers" :=
      VRecord (spread (spread {["Content-Type" := Text "application/json"]}
                              (spread_headers (defaultOptions this !! "headers")))
                      (spread_headers (options !! "headers")))]> mergedOptions.

(** Lines 106-109: the per-call headers spread again over whatever the
    hooks left in [mergedOptions.headers]. *)
Definition final_options (options mergedOptions : RequestInit) : RequestInit :=
  <["headers" :=
      VRecord (spread (spread_headers (mergedOptions !! "headers"))
                      (spread_headers (options !! "headers")))]> mergedOptions.

(** Lines 118-126: throw on [!res.ok], else the envelope. *)
Definition classify {W} (res : Response) (data : Json) : Async W FetcherResponse :=
  if negb (res_ok res) then
    throw (IsFetcherError
             (mkFetcherError (res_statusText res) (res_status res)
                             (Some data) (Some (res_headers res))))
  else
    ret (mkFetcherResponse data (res_status res) (res_headers res)).

(** [private async request<T>(path, options)]. *)
Definition request (host : Host) (this : Fetcher) (path : string)
    (options : RequestInit) : Async (World host) FetcherResponse :=
  let url := baseUrl this +:+ path in
  let mergedOptions := initial_options this options in
  try_catch
    (let* mergedOptions := run_before_hooks host (beforeHooks this) url mergedOptions in
     let mergedOptions := final_options options mergedOptions in
     let* res := call_fetch host url mergedOptions in
     let* data := json_or_null res in
     let* data := run_after_hooks host (afterHooks this) res data in
     classify res data)
    (fun error => throw error).

(** The verb methods: [this.request(path, { ...options, method: "GET" })]. *)
Definition get (host : Host) (this : Fetcher) (path : string) (options : RequestInit)
    : Async (World host) FetcherResponse :=
  request host this path (spread options {["method" := VString "GET"]}).

Definition post (host : Host) (this : Fetcher) (path : string) (options : RequestInit)
    : Async (World host) FetcherResponse :=
  request host this path (spread options {["method" := VString "POST"]}).

Definition put (host : Host) (this : Fetcher) (path : string) (options : RequestInit)
    : Async (World host) FetcherResponse :=
  request host this path (spread options {["method" := VString "PUT"]}).

Definition delete (host : Host) (this : Fetcher) (path : string) (options : RequestInit)
    : Async (World host) FetcherResponse :=
  request host this path (spread options {["method" := VString "DELETE"]}).

(** [parseError(error)]: [None] is [undefined]. *)
Definition parseError (error : JsError) : option ParsedError :=
  match error with
  | IsFetcherError e =>
      Some (mkParsedError (err_message e) (err_status e) (err_data e) (err_headers e))
  | OtherError _ _ => None
  end.

(** The four public verbs, to state properties of all of them at once. *)
Inductive Verb : Type := GET | POST | PUT | DELETE.

Definition verb_method (v : Verb) : string :=
  match v with
  | GET => "GET" | POST => "POST" | PUT => "PUT" | DELETE => "DELETE"
  end.

(** [{ ...options, method: "GET" }] and its three siblings. *)
Definition verb_options (v : Verb) (options : RequestInit) : RequestInit :=
  spread options {["method" := VString (verb_method v)]}.

Definition call (host : Host) (v : Verb) (this : Fetcher) (path : string)
    (options : RequestInit) : Async (World host) FetcherResponse :=
  match v with
  | GET => get host this path options
  | POST => post host this path options
  | PUT => put host this path options
  | DELETE => delete host this path options
  end.

(** ** Reading the events of a run *)

(** An error thrown by host code during the run: by a before-hook, by
    [fetch], or by an after-hook. *)
Definition host_threw (e : JsError) (evs : list Event) : Prop :=
  (∃ h, BeforeHookThrew h e ∈ evs) ∨ FetchThrew e ∈ evs ∨ (∃ h, AfterHookThrew h e ∈ evs).

Definition no_before_hook_threw (evs : list Event) : Prop :=
  ∀ h e, BeforeHookThrew h e ∉ evs.

Definition no_after_hook_threw (evs : list Event) : Prop :=
  ∀ h e, AfterHookThrew h e ∉ evs.

(** No after-hook changed the content of the parsed body. *)
Definition parsed_body_untouched (evs : list Event) : Prop :=
  ∀ h data after, AfterHookReturned h data after ∈ evs → after = data.

(** No before-hook changed the [method] property of the options. *)
Definition method_untouched (evs : list Event) : Prop :=
  ∀ h options after,
    BeforeHookReturned h options after ∈ evs → after !! "method" = options !! "method".

(** No before-hook changed the property [key] of the options. *)
Definition option_untouched (key : string) (evs : list Event) : Prop :=
  ∀ h options after,
    BeforeHookReturned h options after ∈ evs → after !! key = options !! key.

(** [options.headers[key]], for the own properties of [options.headers]. *)
Definition header (key : string) (options : RequestInit) : option HeaderValue :=
  spread_headers (options !! "headers") !! key.


(** The before-hooks invoked, in the order of their invocation. *)
Definition before_hooks_called (evs : list Event) : list HookRef :=
  omap (fun ev => match ev with BeforeHookCalled h _ _ => Some h | _ => None end) evs.

(** The after-hooks invoked, in order, each with the arguments it got. *)
Definition after_hooks_called (evs : list Event) : list (HookRef * Response * Json) :=
  omap (fun ev => match ev with
                  | AfterHookCalled h res data => Some (h, res, data)
                  | _ => None
                  end) evs.

(** The options handed to [fetch], one per dispatch. *)
Definition dispatched (evs : list Event) : list RequestInit :=
  omap (fun ev => match ev with FetchCalled _ options => Some options | _ => None end) evs.

Definition before_event (ev : Event) : bool :=
  match ev with
  | BeforeHookCalled _ _ _ | BeforeHookReturned _ _ _ | BeforeHookThrew _ _ => true
  | _ => false
  end.

Definition after_event (ev : Event) : bool :=
  match ev with
  | AfterHookCalled _ _ _ | AfterHookReturned _ _ _ | AfterHookThrew _ _ => true
  | _ => false
  end.

(** The value [data] is bound to on line 112, and the event the
    [.catch] leaves when [res.json()] rejects. *)
Definition body_or_null (res : Response) : Json :=
  match res_json res with
  | Normal data => data
  | Throw _ => JNull
  end.

Definition json_events (res : Response) : list Event :=
  match res_json res with
  | Normal _ => []
  | Throw e => [JsonRejected e]
  end.

(** The completion lines 118-126 produce. *)
Definition classification (res : Response) (data : Json) : Completion FetcherResponse :=
  if res_ok res then
    Normal (mkFetcherResponse data (res_status res) (res_headers res))
  else
    Throw (IsFetcherError
             (mkFetcherError (res_statusText res) (res_status res)
                             (Some data) (Some (res_headers res)))).

(** What the before-hooks of a list do when each one is run to its end
    before the next one starts, in the order of the list: every hook
    works on the options and in the world the one before it left, and
    the first throw ends the sequence.  This is the host code alone,
    with no event recorded. *)
Fixpoint hooks_in_order (host : Host) (hooks : list HookRef) (url : string)
    (options : RequestInit) (w : World host) : Completion RequestInit * World host :=
  match hooks with
  | [] => (Normal options, w)
  | hook :: rest =>
      let r := beforeHook host hook url options w in
      match hook_completion r with
      | Normal _ => hooks_in_order host rest url (hook_object r) (hook_world r)
      | Throw e => (Throw e, hook_world r)
      end
  end.

(** The same host with other code behind the before-hook references,
    or behind the after-hook references. *)
Definition with_beforeHook (host : Host)
    (code : HookRef → string → RequestInit → World host → HookRun (World host) RequestInit)
    : Host :=
  mkHost (World host) code (afterHook host) (fetch host).

Definition with_afterHook (host : Host)
    (code : HookRef → Response → Json → World host → HookRun (World host) Json)
    : Host :=
  mkHost (World host) (beforeHook host) code (fetch host).

(** The same instance with no after-hook registered. *)
Definition without_after_hooks (this : Fetcher) : Fetcher :=
  mkFetcher (baseUrl this) (defaultOptions this) (beforeHooks this) [].

(** The events of an after-hook that returns and leaves [data] alone. *)
Definition quiet_after_hook (res : Response) (data : Json) (h : HookRef) : list Event :=
  [AfterHookCalled h res data; AfterHookReturned h data data].

(** * Scenarios

    A concrete host, used to run the pipeline on explicit inputs.  Its
    world counts the hook invocations made so far. *)

Definition set_header (key value : string) (options : RequestInit) : RequestInit :=
  <["headers" := VRecord (<[key := Text value]> (spread_headers (options !! "headers")))]>
    options.

(** Before-hooks, by reference:
    - 1: [options.headers["x-api-key"] = "from-hook"]
    - 2: [options.headers["Content-Type"] = "application/x-www-form-urlencoded"]
    - 3: [options.headers = { Authorization: "Bearer token" }]
    - 4: [throw new Error("before-hook failed")]
    - 5: [options.method = "PATCH"]
    - any other: does nothing. *)
Definition demo_beforeHook (h : HookRef) (url : string) (options : RequestInit) (w : nat)
    : HookRun nat RequestInit :=
  match h with
  | 1 => mkHookRun (Normal tt) (set_header "x-api-key" "from-hook" options) (S w)
  | 2 => mkHookRun (Normal tt)
           (set_header "Content-Type" "application/x-www-form-urlencoded" options) (S w)
  | 3 => mkHookRun (Normal tt)
           (<["headers" := VRecord {["Authorization" := Text "Bearer token"]}]> options) (S w)
  | 4 => mkHookRun (Throw (OtherError "Error" "before-hook failed")) options (S w)
  | 5 => mkHookRun (Normal tt) (<["method" := VString "PATCH"]> options) (S w)
  | _ => mkHookRun (Normal tt) options (S w)
  end.

(** After-hooks, by reference:
    - 1: logs (returns, touches nothing)
    - 2: [throw new Error("after-hook failed")]
    - 3: [data.value = "patched"], replacing the members by that one
    - any other: does nothing. *)
Definition demo_afterHook (h : HookRef) (res : Response) (data : Json) (w : nat)
    : HookRun nat Json :=
  match h with
  | 2 => mkHookRun (Throw (OtherError "Error" "after-hook failed")) data (S w)
  | 3 => mkHookRun (Normal tt) (JObject [("value", JString "patched")]) (S w)
  | _ => mkHookRun (Normal tt) data (S w)
  end.

Definition demo_ok : Response :=
  mkResponse true 200 "OK" [("content-type", "application/json")]
             (Normal (JObject [("value", JString "12345")])).

Definition demo_not_found : Response :=
  mkResponse false 404 "Not Found" [("content-type", "application/json")]
             (Normal (JObject [("message", JString "Not found")])).

Definition demo_empty : Response :=
  mkResponse true 200 "OK" []
             (Throw (OtherError "SyntaxError" "Unexpected end of JSON input")).

(** The transport: three reachable paths, anything else is a network
    failure. *)
Definition demo_fetch (url : string) (options : RequestInit) (w : nat)
    : Completion Response * nat :=
  if decide (url = "https://test.com/test") then (Normal demo_ok, w)
  else if decide (url = "https://test.com/missing") then (Normal demo_not_found, w)
  else if decide (url = "https://test.com/empty") then (Normal demo_empty, w)
  else (Throw (OtherError "TypeError" "Network error"), w).

Definition demo_host : Host := mkHost nat demo_beforeHook demo_afterHook demo_fetch.

(** [new Fetcher({ baseUrl: "https://test.com", headers, onBefore, onAfter })]. *)
Definition demo_fetcher (headers : HeadersRecord) (before after : list HookRef) : Fetcher :=
  new_Fetcher
    (mkFetcherOptions
       {["baseUrl" := VString "https://test.com"; "headers" := VRecord headers]}
       (HookArray before) (HookArray after)).

(** The inputs of the runs below. *)
Definition no_options : RequestInit := ∅.

Definition keyed_fetcher : Fetcher :=
  demo_fetcher {["x-api-key" := Text "from-defaults"]} [1] [].

Definition keyed_options : RequestInit :=
  {["headers" := VRecord {["x-api-key" := Text "per-call"]}]}.

Definition keyed_sent : RequestInit :=
  default ∅ (head (dispatched (events
    (call demo_host GET keyed_fetcher "/test" keyed_options 0)))).

(** Defaults and per-call options that both name a method. *)
Definition method_fetcher : Fetcher :=
  mkFetcher "https://test.com" {["method" := VString "HEAD"]} [1; 2] [].

Definition method_options : RequestInit := {["method" := VString "PATCH"]}.

Definition method_sent : RequestInit :=
  default ∅ (head (dispatched (events
    (call demo_host PUT method_fetcher "/test" method_options 0)))).



(** Instance default headers that spell the key in lower case. *)
Definition lower_case_fetcher : Fetcher :=
  demo_fetcher {["content-type" := Text "text/plain"]} [] [].

Definition lower_case_sent : RequestInit :=
  default ∅ (head (dispatched (events
    (call demo_host GET lower_case_fetcher "/test" no_options 0)))).

(** After-hooks that only look (1 and 4), one that throws (2), one
    that writes to the parsed body (3). *)
Definition observed_fetcher : Fetcher := demo_fetcher ∅ [] [1; 4].
Definition failing_fetcher : Fetcher := demo_fetcher ∅ [] [2; 1].
Definition patching_fetcher : Fetcher := demo_fetcher ∅ [] [3].



(** An instance constructed without a base URL, with one after-hook
    given as a single function. *)
Definition bare_fetcher : Fetcher :=
  new_Fetcher (mkFetcherOptions ∅ NoHook (OneHook 1)).

(** Instance defaults and per-call options that both have
    [credentials], the per-call one being an explicit [undefined]. *)
Definition credential_fetcher : Fetcher :=
  mkFetcher "https://test.com" {["credentials" := VString "include"]} [1] [].

Definition credential_options : RequestInit := {["credentials" := VUndefined]}.

Definition credential_sent : RequestInit :=
  default ∅ (head (dispatched (events
    (call demo_host POST credential_fetcher "/test" credential_options 0)))).

(** A before-hook that throws, between two that do not. *)
Definition blocked_fetcher : Fetcher := demo_fetcher ∅ [1; 4; 2] [1].








(** Other code behind before-hook 1: it throws. *)
Definition rewired_beforeHook (h : HookRef) : string → RequestInit → nat → HookRun nat RequestInit :=
  if decide (h = 1) then demo_beforeHook 4 else demo_beforeHook h.

(** HTTP header names are matched without regard to letter case: the
    comparison the platform [Headers] applies to names. *)
Definition ascii_lower (c : ascii) : ascii :=
  let n := nat_of_ascii c in
  if (65 <=? n)%nat && (n <=? 90)%nat then ascii_of_nat (n + 32) else c.

Fixpoint lower (s : string) : string :=
  match s with
  | EmptyString => EmptyString
  | String c rest => String (ascii_lower c) (lower rest)
  end.

Definition same_header_name (a b : string) : bool := String.eqb (lower a) (lower b).

(** * Properties *)

Section Pipeline.

Variable host : Host.

Implicit Types (this : Fetcher) (options : RequestInit) (w : World host).
Implicit Types (evs : list Event) (hooks : list HookRef).

(** ** The monad *)

Lemma try_catch_rethrow {A} (m : Async (World host) A) w :
  try_catch m (fun error => throw error) w = m w.
Proof.
  unfold try_catch, throw. destruct (m w) as [[a|e] fw evs]; simpl; [done|].
  by rewrite app_nil_r.
Qed.

Lemma bind_normal {A B} (m : Async (World host) A) (k : A → Async (World host) B)
    w a fw evs :
  m w = mkRun (Normal a) fw evs →
  bind m k w = mkRun (outcome (k a fw)) (final (k a fw)) (evs ++ events (k a fw)).
Proof. unfold bind. by intros ->. Qed.

Lemma bind_throw {A B} (m : Async (World host) A) (k : A → Async (World host) B)
    w e fw evs :
  m w = mkRun (Throw e) fw evs → bind m k w = mkRun (Throw e) fw evs.
Proof. unfold bind. by intros ->. Qed.

Lemma json_or_null_run res w :
  json_or_null res w = mkRun (Normal (body_or_null res)) w (json_events res).
Proof.
  unfold json_or_null, body_or_null, json_events.
  by destruct (res_json res).
Qed.

Lemma classify_run res data w :
  classify res data w = mkRun (classification res data) w [].
Proof. unfold classify, classification. by destruct (res_ok res). Qed.

(** ** The hook loops *)

Lemma run_before_hooks_events hooks url options w ev :
  ev ∈ events (run_before_hooks host hooks url options w) → before_event ev = true.
Proof.
  revert options w. induction hooks as [|h hooks IH]; intros options w; simpl.
  - by intros ?%elem_of_nil.
  - unfold bind, call_before_hook.
    destruct (hook_completion (beforeHook host h url options w)); simpl.
    + rewrite !elem_of_cons. intros [->|[->|Hin]]; [done..|]. by eapply IH.
    + rewrite !elem_of_cons, elem_of_nil. by intros [->|[->|[]]].
Qed.

Lemma run_after_hooks_events hooks res data w ev :
  ev ∈ events (run_after_hooks host hooks res data w) → after_event ev = true.
Proof.
  revert data w. induction hooks as [|h hooks IH]; intros data w; simpl.
  - by intros ?%elem_of_nil.
  - unfold bind, call_after_hook.
    destruct (hook_completion (afterHook host h res data w)); simpl.
    + rewrite !elem_of_cons. intros [->|[->|Hin]]; [done..|]. by eapply IH.
    + rewrite !elem_of_cons, elem_of_nil. by intros [->|[->|[]]].
Qed.

(** ** One call, phase by phase *)

Lemma request_run this path options w :
  let url := baseUrl this +:+ path in
  let rb := run_before_hooks host (beforeHooks this) url (initial_options this options) w in
  request host this path options w =
  match outcome rb with
  | Throw e => mkRun (Throw e) (final rb) (events rb)
  | Normal hooked =>
      let sent := final_options options hooked in
      match fetch host url sent (final rb) with
      | (Throw e, w1) =>
          mkRun (Throw e) w1 (events rb ++ [FetchCalled url sent; FetchThrew e])
      | (Normal res, w1) =>
          let ra := run_after_hooks host (afterHooks this) res (body_or_null res) w1 in
          mkRun (match outcome ra with
                 | Throw e => Throw e
                 | Normal data => classification res data
                 end)
                (final ra)
                (events rb ++ [FetchCalled url sent; FetchResolved res]
                           ++ json_events res ++ events ra)
      end
  end.
Proof.
  intros url rb. unfold request. rewrite try_catch_rethrow. fold url.
  subst rb.
  destruct (run_before_hooks host (beforeHooks this) url (initial_options this options) w)
    as [[hooked|e] w0 evb] eqn:Hb; simpl.
  2: { by rewrite (bind_throw _ _ _ _ _ _ Hb). }
  rewrite (bind_normal _ _ _ _ _ _ Hb).
  destruct (fetch host url (final_options options hooked) w0) as [[res|e] w1] eqn:Hf.
  2: { erewrite bind_throw; [done|]. unfold call_fetch. by rewrite Hf. }
  erewrite bind_normal; [|unfold call_fetch; by rewrite Hf].
  erewrite bind_normal; [|apply json_or_null_run].
  destruct (run_after_hooks host (afterHooks this) res (body_or_null res) w1)
    as [[data|e] w2 eva] eqn:Ha; simpl.
  - rewrite (bind_normal _ _ _ _ _ _ Ha), classify_run. simpl.
    by rewrite app_nil_r.
  - by rewrite (bind_throw _ _ _ _ _ _ Ha).
Qed.

(** ** Spreads and property reads *)

Lemma lookup_spread {V} (a b : gmap string V) key :
  spread a b !! key = match b !! key with Some x => Some x | None => a !! key end.
Proof.
  unfold spread. rewrite lookup_union.
  by destruct (b !! key), (a !! key).
Qed.

Lemma call_request v this path options :
  call host v this path options = request host this path (verb_options v options).
Proof. by destruct v. Qed.

Lemma verb_options_method v options :
  verb_options v options !! "method" = Some (VString (verb_method v)).
Proof. unfold verb_options. by rewrite lookup_spread, lookup_singleton_eq. Qed.

Lemma verb_options_headers v options :
  verb_options v options !! "headers" = options !! "headers".
Proof. unfold verb_options. by rewrite lookup_spread, lookup_singleton_ne. Qed.

Lemma initial_options_method this options :
  initial_options this options !! "method" =
  match options !! "method" with
  | Some m => Some m
  | None => defaultOptions this !! "method"
  end.
Proof.
  unfold initial_options. by rewrite lookup_insert_ne, lookup_spread.
Qed.

Lemma initial_options_header key this options :
  header key (initial_options this options) =
  match header key options with
  | Some x => Some x
  | None =>
      match header key (defaultOptions this) with
      | Some x => Some x
      | None => if decide (key = "Content-Type") then Some (Text "application/json") else None
      end
  end.
Proof.
  unfold header, initial_options. rewrite lookup_insert_eq. simpl.
  rewrite !lookup_spread.
  destruct (spread_headers (options !! "headers") !! key); [done|].
  destruct (spread_headers (defaultOptions this !! "headers") !! key); [done|].
  case_decide as Hk.
  - subst key. by rewrite lookup_singleton_eq.
  - by rewrite lookup_singleton_ne.
Qed.

Lemma final_options_header key options hooked :
  header key (final_options options hooked) =
  match header key options with
  | Some x => Some x
  | None => header key hooked
  end.
Proof.
  unfold header, final_options. rewrite lookup_insert_eq. simpl.
  by rewrite lookup_spread.
Qed.


Lemma final_options_other key options hooked :
  key ≠ "headers" → final_options options hooked !! key = hooked !! key.
Proof. intros Hk. unfold final_options. by rewrite lookup_insert_ne. Qed.

(** ** What the before-hooks leave behind *)

(** A reading of the options that no hook of the run changed is the
    same after the loop as before it. *)
Lemma run_before_hooks_preserves {A} (proj : RequestInit → A) hooks url options w hooked :
  (∀ h o after,
     BeforeHookReturned h o after ∈ events (run_before_hooks host hooks url options w) →
     proj after = proj o) →
  outcome (run_before_hooks host hooks url options w) = Normal hooked →
  proj hooked = proj options.
Proof.
  revert options w. induction hooks as [|h hooks IH]; intros options w; simpl.
  - intros _ [= ->]. done.
  - unfold bind, call_before_hook.
    destruct (hook_completion (beforeHook host h url options w)); simpl; [|done].
    intros Hev Hout. etransitivity.
    + eapply IH; [|exact Hout]. intros h' o after Hin.
      apply (Hev h'). rewrite !elem_of_cons. by right; right.
    + apply (Hev h). rewrite !elem_of_cons. right; by left.
Qed.


(** The options handed to [fetch] are the ones the before-hooks left,
    with the per-call headers spread over their headers. *)
Lemma dispatched_options this path options w url sent :
  FetchCalled url sent ∈ events (request host this path options w) →
  ∃ hooked,
    outcome (run_before_hooks host (beforeHooks this) (baseUrl this +:+ path)
                              (initial_options this options) w) = Normal hooked
    ∧ url = baseUrl this +:+ path
    ∧ sent = final_options options hooked.
Proof.
  rewrite request_run.
  destruct (run_before_hooks host (beforeHooks this) (baseUrl this +:+ path)
              (initial_options this options) w) as [[hooked|e] w0 evb] eqn:Hb; simpl.
  - assert (Hkind : ∀ ev, ev ∈ evb → before_event ev = true).
    { intros ev Hin. eapply run_before_hooks_events. by rewrite Hb. }
    destruct (fetch host _ _ w0) as [[res|e] w1]; simpl.
    + rewrite elem_of_app, !elem_of_cons, elem_of_app.
      intros [Hin|[[= -> ->]|[[=]|[Hin|Hin]]]].
      * by apply Hkind in Hin.
      * by exists hooked.
      * unfold json_events in Hin. destruct (res_json res).
        -- by apply elem_of_nil in Hin.
        -- by apply list_elem_of_singleton in Hin.
      * by apply run_after_hooks_events in Hin.
    + rewrite elem_of_app, !elem_of_cons, elem_of_nil.
      intros [Hin|[[= -> ->]|[[=]|[]]]].
      * by apply Hkind in Hin.
      * by exists hooked.
  - intros Hin.
    assert (before_event (FetchCalled url sent) = true); [|done].
    eapply run_before_hooks_events. by rewrite Hb.
Qed.

Lemma before_events_in_request this path options w ev :
  ev ∈ events (run_before_hooks host (beforeHooks this) (baseUrl this +:+ path)
                                (initial_options this options) w) →
  ev ∈ events (request host this path options w).
Proof.
  rewrite request_run. simpl.
  destruct (outcome _); [|done].
  destruct (fetch host _ _ _) as [[res|e] w1]; simpl; rewrite elem_of_app; by left.
Qed.

Lemma run_before_hooks_threw hooks url options w h e :
  BeforeHookThrew h e ∈ events (run_before_hooks host hooks url options w) →
  outcome (run_before_hooks host hooks url options w) = Throw e.
Proof.
  revert options w. induction hooks as [|h0 hooks IH]; intros options w; simpl.
  - by intros ?%elem_of_nil.
  - unfold bind, call_before_hook.
    destruct (hook_completion (beforeHook host h0 url options w)); simpl.
    + rewrite !elem_of_cons. intros [[=]|[[=]|Hin]]. by apply IH.
    + rewrite !elem_of_cons, elem_of_nil. by intros [[=]|[[= _ ->]|[]]].
Qed.

(** The hooks the loop invokes are the registered ones from the first
    on, in order, up to one that throws; each invocation is followed at
    once by its return or its throw, and a throw ends the loop. *)
Lemma run_before_hooks_called hooks url options w :
  before_hooks_called (events (run_before_hooks host hooks url options w)) `prefix_of` hooks
  ∧ (no_before_hook_threw (events (run_before_hooks host hooks url options w)) →
     before_hooks_called (events (run_before_hooks host hooks url options w)) = hooks
     ∧ ∃ hooked, outcome (run_before_hooks host hooks url options w) = Normal hooked).
Proof.
  revert options w. induction hooks as [|h hooks IH]; intros options w; simpl.
  - split; [done|]. intros _. split; [done|]. by eexists.
  - unfold bind, call_before_hook.
    destruct (hook_completion (beforeHook host h url options w)); simpl.
    + destruct (IH (hook_object (beforeHook host h url options w))
                   (hook_world (beforeHook host h url options w))) as [Hpre Hall].
      split.
      * by apply prefix_cons.
      * intros Hquiet. destruct Hall as [-> Hout].
        { intros h' e Hin. apply (Hquiet h' e). rewrite !elem_of_cons. by right; right. }
        done.
    + split.
      * apply prefix_cons, prefix_nil.
      * intros Hquiet. exfalso. apply (Hquiet h e).
        rewrite !elem_of_cons. right; by left.
Qed.

Lemma run_before_hooks_awaited hooks url options w (pre post : list Event) h url' o :
  events (run_before_hooks host hooks url options w)
    = pre ++ BeforeHookCalled h url' o :: post →
  (∃ after post', post = BeforeHookReturned h o after :: post')
  ∨ (∃ e, post = [BeforeHookThrew h e]
          ∧ outcome (run_before_hooks host hooks url options w) = Throw e).
Proof.
  revert options w pre. induction hooks as [|h0 hooks IH]; intros options w pre; simpl.
  - intros Heq. by destruct pre.
  - unfold bind, call_before_hook.
    destruct (hook_completion (beforeHook host h0 url options w)); simpl.
    + destruct pre as [|ev1 [|ev2 pre]]; simpl; intros Heq.
      * injection Heq as -> -> -> <-. left. by eexists _, _.
      * discriminate Heq.
      * injection Heq as <- <- Heq. by apply IH in Heq.
    + destruct pre as [|ev1 [|ev2 pre]]; simpl; intros Heq.
      * injection Heq as -> -> -> <-. right. by eexists.
      * discriminate Heq.
      * injection Heq as <- <- Heq. by destruct pre.
Qed.

(** ** What the after-hooks leave behind *)

Lemma run_after_hooks_threw hooks res data w h e :
  AfterHookThrew h e ∈ events (run_after_hooks host hooks res data w) →
  outcome (run_after_hooks host hooks res data w) = Throw e.
Proof.
  revert data w. induction hooks as [|h0 hooks IH]; intros data w; simpl.
  - by intros ?%elem_of_nil.
  - unfold bind, call_after_hook.
    destruct (hook_completion (afterHook host h0 res data w)); simpl.
    + rewrite !elem_of_cons. intros [[=]|[[=]|Hin]]. by apply IH.
    + rewrite !elem_of_cons, elem_of_nil. by intros [[=]|[[= _ ->]|[]]].
Qed.

Lemma run_after_hooks_returned hooks res data w :
  no_after_hook_threw (events (run_after_hooks host hooks res data w)) →
  ∃ data',
    outcome (run_after_hooks host hooks res data w) = Normal data'
    ∧ map (fun c => c.1.1) (after_hooks_called (events (run_after_hooks host hooks res data w)))
      = hooks
    ∧ (data = JNull → data' = JNull)
    ∧ (parsed_body_untouched (events (run_after_hooks host hooks res data w)) →
       data' = data
       ∧ events (run_after_hooks host hooks res data w)
         = flat_map (quiet_after_hook res data) hooks).
Proof.
  revert data w. induction hooks as [|h hooks IH]; intros data w; simpl.
  - intros _. by exists data.
  - unfold bind, call_after_hook.
    destruct (hook_completion (afterHook host h res data w)) eqn:Hc; simpl.
    + intros Hquiet.
      destruct (IH (mutated_in_place data (hook_object (afterHook host h res data w)))
                   (hook_world (afterHook host h res data w)))
        as (data' & Hout & Hcalled & Hnull & Hsame).
      { intros h' e' Hin. apply (Hquiet h' e'). rewrite !elem_of_cons. by right; right. }
      exists data'. split; [done|]. split; [by rewrite Hcalled|]. split.
      * intros ->. by apply Hnull.
      * intros Hun.
        assert (mutated_in_place data (hook_object (afterHook host h res data w)) = data)
          as Hkeep.
        { apply (Hun h). rewrite !elem_of_cons. right; by left. }
        rewrite Hkeep in *.
        destruct Hsame as [-> ->]; [|done].
        intros h' d d' Hin. apply (Hun h'). rewrite !elem_of_cons. by right; right.
    + intros Hquiet. exfalso. apply (Hquiet h e).
      rewrite !elem_of_cons. right; by left.
Qed.

(** ** A call that received a response *)

Lemma resolved_response this path options w res :
  FetchResolved res ∈ events (request host this path options w) →
  ∃ evb sent w1,
    (∀ ev, ev ∈ evb → before_event ev = true)
    ∧ let ra := run_after_hooks host (afterHooks this) res (body_or_null res) w1 in
      request host this path options w =
      mkRun (match outcome ra with
             | Throw e => Throw e
             | Normal data => classification res data
             end)
            (final ra)
            (evb ++ [FetchCalled (baseUrl this +:+ path) sent; FetchResolved res]
                 ++ json_events res ++ events ra).
Proof.
  rewrite request_run.
  destruct (run_before_hooks host (beforeHooks this) (baseUrl this +:+ path)
              (initial_options this options) w) as [[hooked|e] w0 evb] eqn:Hb; simpl.
  - assert (Hkind : ∀ ev, ev ∈ evb → before_event ev = true).
    { intros ev Hin. eapply run_before_hooks_events. by rewrite Hb. }
    destruct (fetch host _ _ w0) as [[res'|e] w1]; simpl.
    + rewrite elem_of_app, !elem_of_cons, elem_of_app.
      intros [Hin|[[=]|[[= ->]|[Hin|Hin]]]].
      * by apply Hkind in Hin.
      * by exists evb, (final_options options hooked), w1.
      * unfold json_events in Hin. destruct (res_json res').
        -- by apply elem_of_nil in Hin.
        -- by apply list_elem_of_singleton in Hin.
      * by apply run_after_hooks_events in Hin.
    + rewrite elem_of_app, !elem_of_cons, elem_of_nil.
      intros [Hin|[[=]|[[=]|[]]]]. by apply Hkind in Hin.
  - intros Hin.
    assert (before_event (FetchResolved res) = true); [|done].
    eapply run_before_hooks_events. by rewrite Hb.
Qed.

Lemma after_hooks_called_none evs :
  (∀ ev, ev ∈ evs → after_event ev = false) → after_hooks_called evs = [].
Proof.
  induction evs as [|ev evs IH]; intros Hkind; [done|].
  assert (after_event ev = false) as Hev by (apply Hkind; by left).
  assert (after_hooks_called evs = []) as IH'.
  { apply IH. intros ev' Hin. apply Hkind. by right. }
  destruct ev; try done; exact IH'.
Qed.

Lemma after_hooks_called_quiet res data hooks :
  after_hooks_called (flat_map (quiet_after_hook res data) hooks)
  = map (fun h => (h, res, data)) hooks.
Proof.
  induction hooks as [|h hooks IH]; [done|].
  change (after_hooks_called (flat_map (quiet_after_hook res data) (h :: hooks)))
    with ((h, res, data) :: after_hooks_called (flat_map (quiet_after_hook res data) hooks)).
  by rewrite IH.
Qed.

(** A call that received a response and in which no after-hook threw:
    the shape of its events and its completion. *)
Lemma resolved_run this path options w res :
  FetchResolved res ∈ events (request host this path options w) →
  no_after_hook_threw (events (request host this path options w)) →
  ∃ (pre post : list Event) (data : Json),
    events (request host this path options w)
      = pre ++ FetchResolved res :: json_events res ++ post
    ∧ (∀ ev, ev ∈ pre → after_event ev = false)
    ∧ map (fun c => c.1.1) (after_hooks_called post) = afterHooks this
    ∧ outcome (request host this path options w) = classification res data
    ∧ (body_or_null res = JNull → data = JNull)
    ∧ (parsed_body_untouched (events (request host this path options w)) →
       data = body_or_null res
       ∧ post = flat_map (quiet_after_hook res (body_or_null res)) (afterHooks this)).
Proof.
  intros (evb & sent & w1 & Hkind & Hr)%resolved_response. simpl in Hr.
  rewrite Hr. simpl. intros Hquiet.
  destruct (run_after_hooks_returned (afterHooks this) res (body_or_null res) w1)
    as (data & Hout & Hcalled & Hnull & Hsame).
  { intros h e Hin. apply (Hquiet h e).
    rewrite elem_of_app, !elem_of_cons, elem_of_app. by right; right; right; right. }
  exists (evb ++ [FetchCalled (baseUrl this +:+ path) sent]),
         (events (run_after_hooks host (afterHooks this) res (body_or_null res) w1)),
         data.
  split; [by rewrite <- app_assoc|]. split.
  { intros ev [Hin|Hin%list_elem_of_singleton]%elem_of_app.
    - apply Hkind in Hin. by destruct ev.
    - by subst ev. }
  split; [done|]. split; [by rewrite Hout|]. split; [done|].
  intros Hun. apply Hsame. intros h d d' Hin. apply (Hun h).
  rewrite elem_of_app, !elem_of_cons, elem_of_app. by right; right; right; right.
Qed.

(** ** The events of a call *)

Lemma split_in_prefix {A} (l1 l2 pre post : list A) x :
  l1 ++ l2 = pre ++ x :: post → x ∉ l2 →
  ∃ post1, l1 = pre ++ x :: post1 ∧ post = post1 ++ l2.
Proof.
  revert l1. induction pre as [|p pre IH]; intros [|a l1]; simpl; intros Heq Hx.
  - exfalso. apply Hx. rewrite Heq. by left.
  - injection Heq as -> <-. by exists l1.
  - exfalso. apply Hx. rewrite Heq. right. rewrite elem_of_app. right. by left.
  - injection Heq as -> Heq. destruct (IH _ Heq Hx) as (post1 & -> & ->).
    by exists post1.
Qed.

Lemma json_events_elem res ev :
  ev ∈ json_events res → ∃ e, ev = JsonRejected e ∧ res_json res = Throw e.
Proof.
  unfold json_events. destruct (res_json res) as [data|e].
  - by intros ?%elem_of_nil.
  - intros ->%list_elem_of_singleton. by exists e.
Qed.

(** The events of a call are those of the before-hook loop, followed,
    when the loop completes, by the dispatch and what comes after it. *)
Lemma request_events this path options w :
  ∃ tail : list Event,
    events (request host this path options w)
      = events (run_before_hooks host (beforeHooks this) (baseUrl this +:+ path)
                                 (initial_options this options) w) ++ tail
    ∧ (∀ ev, ev ∈ tail → before_event ev = false)
    ∧ (∀ e, outcome (run_before_hooks host (beforeHooks this) (baseUrl this +:+ path)
                                      (initial_options this options) w) = Throw e →
            tail = []).
Proof.
  rewrite request_run. simpl.
  destruct (outcome _) as [hooked|e]; simpl.
  - destruct (fetch host _ _ _) as [[res|e] w1]; simpl; eexists; (split; [done|]);
      (split; [|done]); intros ev; rewrite !elem_of_cons, ?elem_of_app, ?elem_of_nil.
    + intros [->|[->|[Hin|Hin]]]; [done..| |].
      * by apply json_events_elem in Hin as (e & -> & _).
      * apply run_after_hooks_events in Hin. by destruct ev.
    + by intros [->|[->|[]]].
  - exists []. rewrite app_nil_r. split; [done|]. split; [|done].
    by intros ev ?%elem_of_nil.
Qed.

Lemma before_hooks_called_none evs :
  (∀ ev, ev ∈ evs → before_event ev = false) → before_hooks_called evs = [].
Proof.
  induction evs as [|ev evs IH]; intros Hkind; [done|].
  assert (before_event ev = false) as Hev by (apply Hkind; by left).
  assert (before_hooks_called evs = []) as IH'.
  { apply IH. intros ev' Hin. apply Hkind. by right. }
  destruct ev; try done; exact IH'.
Qed.

Lemma request_before_hooks_called this path options w :
  before_hooks_called (events (request host this path options w))
  = before_hooks_called
      (events (run_before_hooks host (beforeHooks this) (baseUrl this +:+ path)
                                (initial_options this options) w)).
Proof.
  destruct (request_events this path options w) as (tail & -> & Hkind & _).
  unfold before_hooks_called. rewrite omap_app.
  fold (before_hooks_called tail). rewrite (before_hooks_called_none tail Hkind).
  by rewrite app_nil_r.
Qed.

Lemma before_hook_called_registered this path options w h url o :
  BeforeHookCalled h url o ∈ events (request host this path options w) →
  h ∈ beforeHooks this.
Proof.
  intros Hin.
  assert (h ∈ before_hooks_called (events (request host this path options w))) as Hc.
  { apply list_elem_of_omap. by eexists. }
  rewrite request_before_hooks_called in Hc.
  destruct (run_before_hooks_called (beforeHooks this) (baseUrl this +:+ path)
              (initial_options this options) w) as [[k ->] _].
  rewrite elem_of_app. by left.
Qed.

Lemma run_after_hooks_registered hooks res data w h res' data' :
  AfterHookCalled h res' data' ∈ events (run_after_hooks host hooks res data w) →
  h ∈ hooks.
Proof.
  revert data w. induction hooks as [|h0 hooks IH]; intros data w; simpl.
  - by intros ?%elem_of_nil.
  - unfold bind, call_after_hook.
    destruct (hook_completion (afterHook host h0 res data w)); simpl;
      rewrite !elem_of_cons, ?elem_of_nil.
    + intros [[= -> _ _]|[[=]|Hin]]; [by left|]. right. by eapply IH.
    + intros [[= -> _ _]|[[=]|[]]]. by left.
Qed.

Lemma after_hook_called_registered this path options w h res data :
  AfterHookCalled h res data ∈ events (request host this path options w) →
  h ∈ afterHooks this.
Proof.
  rewrite request_run. simpl.
  destruct (run_before_hooks host (beforeHooks this) (baseUrl this +:+ path)
              (initial_options this options) w) as [[hooked|e] w0 evb] eqn:Hb; simpl.
  - assert (Hkind : ∀ ev, ev ∈ evb → before_event ev = true).
    { intros ev Hin. eapply run_before_hooks_events. by rewrite Hb. }
    destruct (fetch host _ _ w0) as [[res'|e] w1]; simpl;
      rewrite ?elem_of_app, !elem_of_cons, ?elem_of_app, ?elem_of_nil.
    + intros [Hin|[[=]|[[=]|[(e & [=] & _)%json_events_elem|Hin]]]].
      * by apply Hkind in Hin.
      * by eapply run_after_hooks_registered.
    + intros [Hin|[[=]|[[=]|[]]]]. by apply Hkind in Hin.
  - intros Hin.
    assert (before_event (AfterHookCalled h res data) = true); [|done].
    eapply run_before_hooks_events. by rewrite Hb.
Qed.

Lemma filter_absent (hook : HookRef) (hooks : list HookRef) :
  hook ∉ hooks → filter (fun h => h ≠ hook) hooks = hooks.
Proof.
  induction hooks as [|h hooks IH]; [done|].
  rewrite not_elem_of_cons. intros [Hne Hnot].
  rewrite filter_cons_True by done. by rewrite IH.
Qed.

(** ** Header and method precedence *)


(** C10. For every verb call in which no before-hook modifies the
    [method] property of the pending options, the options handed to
    [fetch] carry the verb's own method, whatever method the per-call
    options or the instance default options contain. *)
Theorem verb_method_dispatched v this path options w url sent :
  FetchCalled url sent ∈ events (call host v this path options w) →
  method_untouched (events (call host v this path options w)) →
  sent !! "method" = Some (VString (verb_method v)).
Proof.
  rewrite call_request. intros Hsent Hm.
  destruct (dispatched_options _ _ _ _ _ _ Hsent) as (hooked & Hb & _ & ->).
  rewrite final_options_other by done.
  assert (hooked !! "method" = initial_options this (verb_options v options) !! "method")
    as ->.
  { eapply (run_before_hooks_preserves (fun o => o !! "method")); [|exact Hb].
    intros h o after Hin. apply (Hm h). by apply before_events_in_request. }
  by rewrite initial_options_method, verb_options_method.
Qed.


(** C6, amended. In the header merge, header keys are compared by
    their exact spelling.  For every key, the headers built before the
    hooks hold the per-call value, else the instance default value,
    else, for the key "Content-Type" spelled so, "application/json"; the
    headers handed to [fetch] hold the per-call value, else what the
    headers left by the before-hooks hold under that same spelling.
    Entries whose keys differ only in letter case do not meet. *)
Theorem header_merge_exact_keys v this path options w key :
  header key (initial_options this options)
  = match header key options with
    | Some x => Some x
    | None =>
        match header key (defaultOptions this) with
        | Some x => Some x
        | None => if decide (key = "Content-Type") then Some (Text "application/json") else None
        end
    end
  ∧ ∀ url sent,
      FetchCalled url sent ∈ events (call host v this path options w) →
      ∃ hooked,
        outcome (run_before_hooks host (beforeHooks this) (baseUrl this +:+ path)
                   (initial_options this (verb_options v options)) w) = Normal hooked
        ∧ header key sent
          = match header key options with
            | Some x => Some x
            | None => header key hooked
            end.
Proof.
  split; [apply initial_options_header|].
  intros url sent. rewrite call_request.
  intros (hooked & Hb & _ & ->)%dispatched_options.
  exists hooked. split; [done|].
  rewrite final_options_header. unfold header. by rewrite verb_options_headers.
Qed.

(** ** Response classification and after-hooks *)


(** C4, amended. For every verb call whose response has [ok] true and a
    body that fails to parse, and in which no after-hook threw, the
    call returns the envelope with [data] null and the response's status
    and headers: the parse failure is not raised. *)
Theorem unparseable_body_is_null v this path options w res e :
  FetchResolved res ∈ events (call host v this path options w) →
  res_ok res = true →
  res_json res = Throw e →
  no_after_hook_threw (events (call host v this path options w)) →
  outcome (call host v this path options w)
  = Normal (mkFetcherResponse JNull (res_status res) (res_headers res)).
Proof.
  rewrite call_request. intros Hres Hok Hjson Hquiet.
  destruct (resolved_run _ _ _ _ _ Hres Hquiet)
    as (pre & post & data & _ & _ & _ & Hout & Hnull & _).
  rewrite Hout, Hnull; [|unfold body_or_null; by rewrite Hjson].
  unfold classification. by rewrite Hok.
Qed.

(** C7, amended. For every verb call in which every after-hook returns
    and leaves the parsed body as it found it, the call completes as it
    would with no after-hook registered: the same envelope is returned
    or the same error thrown. *)
Theorem quiet_after_hooks_keep_outcome v this path options w :
  no_after_hook_threw (events (call host v this path options w)) →
  parsed_body_untouched (events (call host v this path options w)) →
  outcome (call host v this path options w)
  = outcome (call host v (without_after_hooks this) path options w).
Proof.
  rewrite !call_request, (request_run (without_after_hooks this)), (request_run this).
  change (initial_options (without_after_hooks this)) with (initial_options this).
  change (baseUrl (without_after_hooks this)) with (baseUrl this).
  change (beforeHooks (without_after_hooks this)) with (beforeHooks this).
  change (afterHooks (without_after_hooks this)) with (@nil HookRef).
  cbv zeta.
  destruct (run_before_hooks host (beforeHooks this) (baseUrl this +:+ path)
              (initial_options this (verb_options v options)) w)
    as [[hooked|e] w0 evb]; simpl; [|done].
  destruct (fetch host _ _ w0) as [[res|e] w1]; simpl; [|done].
  intros Hquiet Hun.
  destruct (run_after_hooks_returned (afterHooks this) res (body_or_null res) w1)
    as (data & Hout & _ & _ & Hsame).
  { intros h e Hin. apply (Hquiet h e).
    rewrite elem_of_app, !elem_of_cons, elem_of_app. by right; right; right; right. }
  rewrite Hout. destruct Hsame as [-> _]; [|done].
  intros h d d' Hin. apply (Hun h).
  rewrite elem_of_app, !elem_of_cons, elem_of_app. by right; right; right; right.
Qed.

(** ** Dispatch *)

Lemma dispatched_none evs :
  (∀ ev url o, ev ∈ evs → ev ≠ FetchCalled url o) → dispatched evs = [].
Proof.
  induction evs as [|ev evs IH]; intros Hnone; [done|].
  assert (dispatched evs = []) as IH'.
  { apply IH. intros ev' url o Hin. apply Hnone. by right. }
  destruct ev; try exact IH'.
  exfalso. by eapply Hnone; [left|].
Qed.

(** A call hands options to [fetch] at most once, and exactly once when
    no before-hook throws. *)
Lemma dispatch_once this path options w :
(length (dispatched (events (request host this path options w))) ≤ 1)%nat
  ∧ (no_before_hook_threw (events (request host this path options w)) →
     ∃ sent, dispatched (events (request host this path options w)) = [sent]).
Proof.
  rewrite request_run. simpl.
  pose proof (run_before_hooks_events (beforeHooks this) (baseUrl this +:+ path)
                (initial_options this options) w) as Hkind.
  assert (Hb : dispatched
                 (events (run_before_hooks host (beforeHooks this) (baseUrl this +:+ path)
                            (initial_options this options) w)) = []).
  { apply dispatched_none. intros ev url o Hin ->. by apply Hkind in Hin. }
  destruct (outcome _) as [hooked|e] eqn:Hout; simpl.
  - assert (∀ res, dispatched (json_events res) = []) as Hj.
    { intros res. unfold json_events. by destruct (res_json res). }
    assert (∀ res d w1, dispatched (events (run_after_hooks host (afterHooks this)
                                              res d w1)) = []) as Ha.
    { intros res d w1. apply dispatched_none. intros ev url o Hin ->.
      by apply run_after_hooks_events in Hin. }
    destruct (fetch host _ _ _) as [[res|e] w1]; simpl; unfold dispatched in *;
      rewrite ?omap_app, Hb; simpl; rewrite ?omap_app, ?Hj, ?Ha; simpl;
      (split; [lia|intros _; by eexists]).
  - rewrite Hb. split; [simpl; lia|].
    intros Hquiet.
    destruct (run_before_hooks_called (beforeHooks this) (baseUrl this +:+ path)
                (initial_options this options) w) as [_ Hall].
    destruct (Hall Hquiet) as [_ [hooked Hn]]. congruence.
Qed.

(** ** Errors *)

(** Case analysis on where in a call's events a given one sits. *)
Ltac split_event H :=
  repeat first [ rewrite elem_of_app in H | rewrite elem_of_cons in H
               | rewrite elem_of_nil in H ];
  destruct_or? H.

Ltac close_event :=
  match goal with
  | H : False |- _ => destruct H
  | H : @eq Event _ _ |- _ => by simplify_eq
  | Hk : ∀ ev, ev ∈ ?l → before_event ev = true, H : _ ∈ ?l |- _ => by apply Hk in H
  | H : _ ∈ json_events _ |- _ => by apply json_events_elem in H as (? & [=] & _)
  | H : _ ∈ events (run_after_hooks _ _ _ _ _) |- _ =>
      by apply run_after_hooks_events in H
  end.


Lemma host_error_propagates this path options w e :
  host_threw e (events (request host this path options w)) →
  outcome (request host this path options w) = Throw e.
Proof.
  rewrite request_run. simpl.
  pose proof (run_before_hooks_threw (beforeHooks this) (baseUrl this +:+ path)
                (initial_options this options) w) as Hthrew.
  destruct (run_before_hooks host (beforeHooks this) (baseUrl this +:+ path)
              (initial_options this options) w) as [[hooked|e0] w0 evb] eqn:Hb;
    simpl in *.
  - assert (Hkind : ∀ ev, ev ∈ evb → before_event ev = true).
    { intros ev Hin. eapply run_before_hooks_events. by rewrite Hb. }
    destruct (fetch host _ _ w0) as [[res|e1] w1]; simpl.
    + intros [[h Hin]|[Hin|[h Hin]]]; split_event Hin; try close_event.
      * by apply Hthrew in Hin.
      * by rewrite (run_after_hooks_threw _ _ _ _ _ _ Hin).
    + intros [[h Hin]|[Hin|[h Hin]]]; split_event Hin; try close_event.
      by apply Hthrew in Hin.
  - assert (Hkind : ∀ ev, ev ∈ evb → before_event ev = true).
    { intros ev Hin. eapply run_before_hooks_events. by rewrite Hb. }
    intros [[h Hin]|[Hin|[h Hin]]]; try close_event.
    by injection (Hthrew h e Hin) as ->.
Qed.

Lemma json_rejected_resolved this path options w e :
  JsonRejected e ∈ events (request host this path options w) →
  ∃ res, FetchResolved res ∈ events (request host this path options w)
         ∧ res_json res = Throw e.
Proof.
  rewrite request_run. simpl.
  destruct (run_before_hooks host (beforeHooks this) (baseUrl this +:+ path)
              (initial_options this options) w) as [[hooked|e0] w0 evb] eqn:Hb; simpl.
  - assert (Hkind : ∀ ev, ev ∈ evb → before_event ev = true).
    { intros ev Hin. eapply run_before_hooks_events. by rewrite Hb. }
    destruct (fetch host _ _ w0) as [[res|e1] w1]; simpl;
      rewrite !elem_of_app, !elem_of_cons, ?elem_of_app, ?elem_of_nil.
    + intros [Hin|[[=]|[[=]|[Hin|Hin]]]].
      * by apply Hkind in Hin.
      * apply json_events_elem in Hin as (e' & [= ->] & Hj).
        exists res. split; [|done].
        rewrite !elem_of_app, !elem_of_cons. right; right; by left.
      * by apply run_after_hooks_events in Hin.
    + intros [Hin|[[=]|[[=]|[]]]]. by apply Hkind in Hin.
  - intros Hin.
    assert (before_event (JsonRejected e) = true); [|done].
    eapply run_before_hooks_events. by rewrite Hb.
Qed.

(** C3. For every verb call: an error thrown by [fetch] or by a hook is
    what the call throws, as it is (so one that is not a FetcherError
    stays one); [parseError] of an error that is not a FetcherError is
    undefined; and a rejection of [res.json()] is not what the call
    ends with: when nothing else threw, the call is classified with a
    null body. *)
Theorem host_errors_propagate v this path options w :
  (∀ e, host_threw e (events (call host v this path options w)) →
        outcome (call host v this path options w) = Throw e)
  ∧ (∀ name message, parseError (OtherError name message) = None)
  ∧ (∀ e, JsonRejected e ∈ events (call host v this path options w) →
          (∀ e', ¬ host_threw e' (events (call host v this path options w))) →
          ∃ res, FetchResolved res ∈ events (call host v this path options w)
                 ∧ res_json res = Throw e
                 ∧ outcome (call host v this path options w) = classification res JNull).
Proof.
  rewrite call_request. split; [|split].
  - intros e. apply host_error_propagates.
  - done.
  - intros e (res & Hres & Hjson)%json_rejected_resolved Hnone.
    exists res. split; [done|]. split; [done|].
    destruct (resolved_run _ _ _ _ _ Hres) as (_ & _ & data & _ & _ & _ & Hout & Hnull & _).
    { intros h e' Hin. apply (Hnone e'). right; right. by exists h. }
    rewrite Hout, Hnull; [done|]. unfold body_or_null. by rewrite Hjson.
Qed.

(** ** The URL and the other options *)

Lemma run_before_hooks_url hooks url options w h url' o :
  BeforeHookCalled h url' o ∈ events (run_before_hooks host hooks url options w) →
  url' = url.
Proof.
  revert options w. induction hooks as [|h0 hooks IH]; intros options w; simpl.
  - by intros ?%elem_of_nil.
  - unfold bind, call_before_hook.
    destruct (hook_completion (beforeHook host h0 url options w)); simpl;
      rewrite !elem_of_cons, ?elem_of_nil.
    + intros [[= _ -> _]|[[=]|Hin]]; [done|]. by eapply IH.
    + by intros [[= _ -> _]|[[=]|[]]].
Qed.

(** X1. The URL every before-hook is given and the URL handed to
    [fetch] are the instance's base URL followed by the path, as they
    are: nothing is inserted between them, and no hook can change where
    the request goes. *)
Theorem url_is_base_plus_path v this path options w :
  (∀ h url o, BeforeHookCalled h url o ∈ events (call host v this path options w) →
              url = baseUrl this +:+ path)
  ∧ (∀ url o, FetchCalled url o ∈ events (call host v this path options w) →
              url = baseUrl this +:+ path).
Proof.
  rewrite call_request. split.
  - intros h url o Hin.
    destruct (request_events this path (verb_options v options) w)
      as (tail & Hev & Hkind & _).
    rewrite Hev in Hin. apply elem_of_app in Hin as [Hin|Hin].
    + by eapply run_before_hooks_url.
    + by apply Hkind in Hin.
  - by intros url o (hooked & _ & -> & _)%dispatched_options.
Qed.

(** X2. An instance constructed without a base URL (the property
    absent or undefined) sends every request to the path itself. *)
Theorem missing_baseUrl_uses_path fo v path options w url sent :
  props fo !! "baseUrl" = None ∨ props fo !! "baseUrl" = Some VUndefined →
  FetchCalled url sent ∈ events (call host v (new_Fetcher fo) path options w) →
  url = path.
Proof.
  intros Hbase. rewrite call_request.
  intros (hooked & _ & -> & _)%dispatched_options.
  unfold new_Fetcher. simpl. by destruct Hbase as [-> | ->].
Qed.

Lemma request_option key this path options w url sent :
  key ≠ "headers" →
  FetchCalled url sent ∈ events (request host this path options w) →
  option_untouched key (events (request host this path options w)) →
  sent !! key = match options !! key with
                | Some x => Some x
                | None => defaultOptions this !! key
                end.
Proof.
  intros Hkey Hsent Hun.
  destruct (dispatched_options _ _ _ _ _ _ Hsent) as (hooked & Hb & _ & ->).
  rewrite final_options_other by done.
  assert (hooked !! key = initial_options this options !! key) as ->.
  { eapply (run_before_hooks_preserves (fun o => o !! key)); [|exact Hb].
    intros h o after Hin. apply (Hun h). by apply before_events_in_request. }
  unfold initial_options. by rewrite lookup_insert_ne, lookup_spread.
Qed.

(** X3. For every option other than [headers] and [method] that no
    before-hook changes, [fetch] gets the per-call value when the
    per-call options have the property at all (an explicit [undefined]
    included) and the instance default otherwise. *)
Theorem option_precedence v this path options w url sent key :
  key ≠ "headers" →
  key ≠ "method" →
  FetchCalled url sent ∈ events (call host v this path options w) →
  option_untouched key (events (call host v this path options w)) →
  sent !! key = match options !! key with
                | Some x => Some x
                | None => defaultOptions this !! key
                end.
Proof.
  intros Hh Hm. rewrite call_request. intros Hsent Hun.
  rewrite (request_option key _ _ _ _ _ _ Hh Hsent Hun).
  unfold verb_options. by rewrite lookup_spread, lookup_singleton_ne.
Qed.

(** X4. The constructor keeps [baseUrl] among the default options, so
    it travels to [fetch] as an option of every request, unless the
    per-call options or a before-hook put something else under that
    name. *)
Theorem baseUrl_reaches_fetch fo v path options w url sent b :
  props fo !! "baseUrl" = Some b →
  options !! "baseUrl" = None →
  FetchCalled url sent ∈ events (call host v (new_Fetcher fo) path options w) →
  option_untouched "baseUrl" (events (call host v (new_Fetcher fo) path options w)) →
  sent !! "baseUrl" = Some b.
Proof.
  intros Hb Hnone. rewrite call_request. intros Hsent Hun.
  rewrite (request_option "baseUrl" _ _ _ _ _ _ ltac:(done) Hsent Hun).
  unfold verb_options. rewrite lookup_spread, lookup_singleton_ne by done.
  by rewrite Hnone.
Qed.

(** X5. After [clearHooks] a call is the transport and the
    classification alone: [fetch] gets the merged options, and the call
    ends with [fetch]'s error, or with the classification of its
    response and the parsed body (null when it does not parse); no hook
    runs. *)
Theorem clearHooks_call v this path options w :
  call host v (clearHooks this) path options w
  = match fetch host (baseUrl this +:+ path)
            (final_options (verb_options v options)
                           (initial_options this (verb_options v options))) w with
    | (Normal res, w1) =>
        mkRun (classification res (body_or_null res)) w1
              (FetchCalled (baseUrl this +:+ path)
                 (final_options (verb_options v options)
                                (initial_options this (verb_options v options)))
               :: FetchResolved res :: json_events res)
    | (Throw e, w1) =>
        mkRun (Throw e) w1
              [FetchCalled (baseUrl this +:+ path)
                 (final_options (verb_options v options)
                                (initial_options this (verb_options v options)));
               FetchThrew e]
    end.
Proof.
  rewrite call_request, request_run. simpl.
  change (initial_options (clearHooks this)) with (initial_options this).
  destruct (fetch host _ _ w) as [[res|e] w1]; simpl; [|done].
  by rewrite app_nil_r.
Qed.

(** X8. A call hands options to [fetch] at most once (there is no
    retry), and exactly once when no before-hook throws. *)
Theorem single_dispatch v this path options w :
  (length (dispatched (events (call host v this path options w))) ≤ 1)%nat
  ∧ (no_before_hook_threw (events (call host v this path options w)) →
     ∃ sent, dispatched (events (call host v this path options w)) = [sent]).
Proof. rewrite call_request. apply dispatch_once. Qed.

(** ** Hook events and hook code *)

Lemma run_before_hooks_awaited_host hooks url options w
    (pre post : list Event) h url' o :
  events (run_before_hooks host hooks url options w)
    = pre ++ BeforeHookCalled h url' o :: post →
  ∃ w0,
    (hook_completion (beforeHook host h url' o w0) = Normal tt
     ∧ ∃ post' : list Event,
         post = BeforeHookReturned h o (hook_object (beforeHook host h url' o w0)) :: post')
    ∨ (∃ e, hook_completion (beforeHook host h url' o w0) = Throw e
            ∧ post = [BeforeHookThrew h e]).
Proof.
  revert options w pre. induction hooks as [|h0 hooks IH]; intros options w pre; simpl.
  - intros Heq. by destruct pre.
  - unfold bind, call_before_hook.
    destruct (hook_completion (beforeHook host h0 url options w)) as [[]|e] eqn:Hc; simpl.
    + destruct pre as [|ev1 [|ev2 pre]]; simpl; intros Heq.
      * injection Heq as <- <- <- <-. exists w. left. split; [done|]. by eexists.
      * discriminate Heq.
      * injection Heq as <- <- Heq. by apply IH in Heq.
    + destruct pre as [|ev1 [|ev2 pre]]; simpl; intros Heq.
      * injection Heq as <- <- <- <-. exists w. right. by exists e.
      * discriminate Heq.
      * injection Heq as <- <- Heq. by destruct pre.
Qed.

Lemma run_after_hooks_awaited_host hooks res data w (pre post : list Event) h res' d :
  events (run_after_hooks host hooks res data w)
    = pre ++ AfterHookCalled h res' d :: post →
  ∃ w0,
    (hook_completion (afterHook host h res' d w0) = Normal tt
     ∧ ∃ post' : list Event,
         post = AfterHookReturned h d
                  (mutated_in_place d (hook_object (afterHook host h res' d w0)))
                :: post')
    ∨ (∃ e, hook_completion (afterHook host h res' d w0) = Throw e
            ∧ post = [AfterHookThrew h e]).
Proof.
  revert data w pre. induction hooks as [|h0 hooks IH]; intros data w pre; simpl.
  - intros Heq. by destruct pre.
  - unfold bind, call_after_hook.
    destruct (hook_completion (afterHook host h0 res data w)) as [[]|e] eqn:Hc; simpl.
    + destruct pre as [|ev1 [|ev2 pre]]; simpl; intros Heq.
      * injection Heq as <- <- <- <-. exists w. left. split; [done|]. by eexists.
      * discriminate Heq.
      * injection Heq as <- <- Heq. by apply IH in Heq.
    + destruct pre as [|ev1 [|ev2 pre]]; simpl; intros Heq.
      * injection Heq as <- <- <- <-. exists w. right. by exists e.
      * discriminate Heq.
      * injection Heq as <- <- Heq. by destruct pre.
Qed.

Lemma split_in_suffix {A} (l1 l2 pre post : list A) x :
  l1 ++ l2 = pre ++ x :: post → x ∉ l1 →
  ∃ pre2, l2 = pre2 ++ x :: post ∧ pre = l1 ++ pre2.
Proof.
  revert pre. induction l1 as [|a l1 IH]; intros pre; simpl; intros Heq Hx.
  - by exists pre.
  - destruct pre as [|p pre]; simpl in Heq.
    + injection Heq as -> _. exfalso. apply Hx. by left.
    + injection Heq as -> Heq. destruct (IH pre Heq) as (pre2 & -> & ->).
      * intros Hin. apply Hx. by right.
      * by exists pre2.
Qed.

(** Every invocation of a before-hook in a call's events is followed at
    once by what running that hook's code on the recorded arguments
    gives: its return, with the options it left, or its throw, which is
    then the last event. *)
Lemma request_before_hook_run this path options w (pre post : list Event) h url o :
  events (request host this path options w) = pre ++ BeforeHookCalled h url o :: post →
  ∃ w0,
    (hook_completion (beforeHook host h url o w0) = Normal tt
     ∧ ∃ post' : list Event,
         post = BeforeHookReturned h o (hook_object (beforeHook host h url o w0)) :: post')
    ∨ (∃ e, hook_completion (beforeHook host h url o w0) = Throw e
            ∧ post = [BeforeHookThrew h e]).
Proof.
  intros Heq.
  destruct (request_events this path options w) as (tail & Hev & Hkind & Hthrow).
  rewrite Hev in Heq.
  apply split_in_prefix in Heq as (post1 & Heq & ->).
  2: { intros Hin. by apply Hkind in Hin. }
  pose proof (run_before_hooks_threw (beforeHooks this) (baseUrl this +:+ path)
                (initial_options this options) w h) as Hthrew.
  apply run_before_hooks_awaited_host in Heq as Hhost.
  destruct Hhost as [w0 [(Hc & post' & ->)|(e & Hc & ->)]]; exists w0.
  - left. split; [done|]. by eexists.
  - right. exists e. split; [done|].
    rewrite (Hthrow e); [done|]. apply Hthrew. rewrite Heq.
    rewrite elem_of_app, !elem_of_cons. right; right; by left.
Qed.

(** The same for the after-hooks, whose return leaves the parsed body
    in the state the hook's code put it. *)
Lemma request_after_hook_run this path options w (pre post : list Event) h res d :
  events (request host this path options w) = pre ++ AfterHookCalled h res d :: post →
  ∃ w0,
    (hook_completion (afterHook host h res d w0) = Normal tt
     ∧ ∃ post' : list Event,
         post = AfterHookReturned h d
                  (mutated_in_place d (hook_object (afterHook host h res d w0)))
                :: post')
    ∨ (∃ e, hook_completion (afterHook host h res d w0) = Throw e
            ∧ post = [AfterHookThrew h e]).
Proof.
  rewrite request_run. simpl.
  destruct (run_before_hooks host (beforeHooks this) (baseUrl this +:+ path)
              (initial_options this options) w) as [[hooked|e0] w0 evb] eqn:Hb; simpl.
  - assert (Hkind : ∀ ev, ev ∈ evb → before_event ev = true).
    { intros ev Hin. eapply run_before_hooks_events. by rewrite Hb. }
    destruct (fetch host _ _ w0) as [[res'|e1] w1]; simpl; intros Heq.
    + change (evb ++ FetchCalled (baseUrl this +:+ path) (final_options options hooked)
                  :: FetchResolved res'
                  :: json_events res'
                     ++ events (run_after_hooks host (afterHooks this) res'
                                  (body_or_null res') w1))
        with (evb ++ ([FetchCalled (baseUrl this +:+ path) (final_options options hooked);
                       FetchResolved res'] ++ json_events res')
                  ++ events (run_after_hooks host (afterHooks this) res'
                               (body_or_null res') w1)) in Heq.
      rewrite (app_assoc evb) in Heq.
      apply split_in_suffix in Heq as (pre2 & Heq & _).
      * by eapply run_after_hooks_awaited_host.
      * intros Hin. split_event Hin; close_event.
    + exfalso.
      assert (AfterHookCalled h res d
                ∈ evb ++ [FetchCalled (baseUrl this +:+ path) (final_options options hooked);
                          FetchThrew e1]) as Hin.
      { rewrite Heq. rewrite elem_of_app. right. by left. }
      split_event Hin; close_event.
  - intros Heq. exfalso.
    assert (before_event (AfterHookCalled h res d) = true); [|done].
    eapply run_before_hooks_events. rewrite Hb. simpl. rewrite Heq.
    rewrite elem_of_app. right. by left.
Qed.

(** C8, amended. For every verb call that received a response and in
    which no after-hook threw, every registered after-hook is invoked
    exactly once, in registration order, after the response was
    received and its body parsed; the completion of the call is the
    classification of the response, success or failure alike.  When no
    after-hook changed the parsed body, each one received the response
    and the very body the call then returns or throws.  Each invocation
    is a run of that hook's code: it is followed at once by the hook's
    return, with the parsed body as its code left it. *)
Theorem after_hooks_invocation v this path options w res :
  FetchResolved res ∈ events (call host v this path options w) →
  no_after_hook_threw (events (call host v this path options w)) →
  (∃ (pre post : list Event) (data : Json),
     events (call host v this path options w)
       = pre ++ FetchResolved res :: json_events res ++ post
     ∧ after_hooks_called pre = []
     ∧ map (fun c => c.1.1) (after_hooks_called post) = afterHooks this
     ∧ outcome (call host v this path options w) = classification res data
     ∧ (parsed_body_untouched (events (call host v this path options w)) →
        data = body_or_null res
        ∧ after_hooks_called post
          = map (fun h => (h, res, body_or_null res)) (afterHooks this)))
  ∧ (∀ (before after : list Event) h res' d,
       events (call host v this path options w)
         = before ++ AfterHookCalled h res' d :: after →
       ∃ w0 (rest : list Event),
         hook_completion (afterHook host h res' d w0) = Normal tt
         ∧ after = AfterHookReturned h d
                     (mutated_in_place d (hook_object (afterHook host h res' d w0)))
                   :: rest).
Proof.
  rewrite call_request. intros Hres Hquiet. split.
  - destruct (resolved_run _ _ _ _ _ Hres Hquiet)
      as (pre & post & data & Hev & Hpre & Hcalled & Hout & _ & Hsame).
    exists pre, post, data. split; [done|].
    split; [by apply after_hooks_called_none|]. split; [done|]. split; [done|].
    intros Hun. destruct (Hsame Hun) as [-> ->].
    by rewrite after_hooks_called_quiet.
  - intros before after h res' d Heq.
    apply request_after_hook_run in Heq as Hrun.
    destruct Hrun as [w0 [(Hc & rest & ->)|(e & Hc & ->)]].
    + by exists w0, rest.
    + exfalso. apply (Hquiet h e). rewrite Heq.
      rewrite elem_of_app, !elem_of_cons. right; right; by left.
Qed.

(** ** Registering and removing hooks *)

Lemma filter_other_commute (a b : HookRef) (hooks : list HookRef) :
  filter (fun h => h ≠ a) (filter (fun h => h ≠ b) hooks)
  = filter (fun h => h ≠ b) (filter (fun h => h ≠ a) hooks).
Proof.
  rewrite !list_filter_filter. apply list_filter_iff. intros h. tauto.
Qed.

Lemma filter_other_idemp (a : HookRef) (hooks : list HookRef) :
  filter (fun h => h ≠ a) (filter (fun h => h ≠ a) hooks)
  = filter (fun h => h ≠ a) hooks.
Proof.
  apply filter_absent. intros Hin. by apply list_elem_of_filter in Hin as [? _].
Qed.

(** X6. How the registry methods compose.  Removing a hook right
    after adding it removes as well every earlier registration of it,
    so it restores the instance only when the hook was not registered
    before; removing twice is removing once; removals of two hooks can
    be done in either order; removing a before-hook and removing an
    after-hook do not interfere; and [clearHooks] undoes every
    registration. *)
Theorem registry_algebra this a b :
  removeBeforeHook (addBeforeHook this a) a = removeBeforeHook this a
  ∧ removeAfterHook (addAfterHook this a) a = removeAfterHook this a
  ∧ (a ∉ beforeHooks this → removeBeforeHook (addBeforeHook this a) a = this)
  ∧ (a ∉ afterHooks this → removeAfterHook (addAfterHook this a) a = this)
  ∧ removeBeforeHook (removeBeforeHook this a) a = removeBeforeHook this a
  ∧ removeAfterHook (removeAfterHook this a) a = removeAfterHook this a
  ∧ removeBeforeHook (removeBeforeHook this a) b
    = removeBeforeHook (removeBeforeHook this b) a
  ∧ removeAfterHook (removeAfterHook this a) b
    = removeAfterHook (removeAfterHook this b) a
  ∧ removeAfterHook (removeBeforeHook this a) b
    = removeBeforeHook (removeAfterHook this b) a
  ∧ clearHooks (addAfterHook (addBeforeHook this a) b) = clearHooks this.
Proof.
  assert (Hadd : ∀ hooks : list HookRef,
            filter (fun h => h ≠ a) (hooks ++ [a]) = filter (fun h => h ≠ a) hooks).
  { intros hooks. rewrite filter_app, filter_cons_False, filter_nil by naive_solver.
    apply app_nil_r. }
  destruct this as [base defaults before after].
  unfold removeBeforeHook, removeAfterHook, addBeforeHook, addAfterHook, clearHooks.
  simpl. repeat split.
  - by rewrite Hadd.
  - by rewrite Hadd.
  - intros Hnot. by rewrite Hadd, filter_absent.
  - intros Hnot. by rewrite Hadd, filter_absent.
  - by rewrite filter_other_idemp.
  - by rewrite filter_other_idemp.
  - by rewrite filter_other_commute.
  - by rewrite filter_other_commute.
Qed.

Lemma request_after_hooks_called this path options w res :
  FetchResolved res ∈ events (request host this path options w) →
  no_after_hook_threw (events (request host this path options w)) →
  map (fun c => c.1.1) (after_hooks_called (events (request host this path options w)))
  = afterHooks this.
Proof.
  intros Hres Hquiet.
  destruct (resolved_run _ _ _ _ _ Hres Hquiet)
    as (pre & post & data & -> & Hpre & Hcalled & _).
  unfold after_hooks_called in *.
  rewrite omap_app. fold (after_hooks_called pre).
  rewrite (after_hooks_called_none pre Hpre). simpl.
  rewrite omap_app.
  assert (omap (fun ev => match ev with
                          | AfterHookCalled h res0 data0 => Some (h, res0, data0)
                          | _ => None
                          end) (json_events res) = []) as ->; [|done].
  unfold json_events. by destruct (res_json res).
Qed.

(** X7. A hook added with [addBeforeHook] or [addAfterHook] runs after
    all the hooks registered before it: in a call in which no
    before-hook throws, the before-hooks invoked are the earlier ones
    followed by the new one; in a call that received a response and in
    which no after-hook throws, so are the after-hooks.  Nothing is
    deduplicated: a hook registered twice runs twice.  Each invocation
    of the added hook is a run of its code: it is followed at once by
    what that code gives on the recorded arguments. *)
Theorem added_hook_runs_last v this path options w hook :
  (no_before_hook_threw (events (call host v (addBeforeHook this hook) path options w)) →
   before_hooks_called (events (call host v (addBeforeHook this hook) path options w))
   = beforeHooks this ++ [hook])
  ∧ (∀ res,
       FetchResolved res ∈ events (call host v (addAfterHook this hook) path options w) →
       no_after_hook_threw (events (call host v (addAfterHook this hook) path options w)) →
       map (fun c => c.1.1)
           (after_hooks_called (events (call host v (addAfterHook this hook) path options w)))
       = afterHooks this ++ [hook])
  ∧ (∀ (pre post : list Event) url o,
       events (call host v (addBeforeHook this hook) path options w)
         = pre ++ BeforeHookCalled hook url o :: post →
       ∃ w0,
         (hook_completion (beforeHook host hook url o w0) = Normal tt
          ∧ ∃ post' : list Event,
              post = BeforeHookReturned hook o
                       (hook_object (beforeHook host hook url o w0)) :: post')
         ∨ (∃ e, hook_completion (beforeHook host hook url o w0) = Throw e
                 ∧ post = [BeforeHookThrew hook e]))
  ∧ (∀ (pre post : list Event) res d,
       events (call host v (addAfterHook this hook) path options w)
         = pre ++ AfterHookCalled hook res d :: post →
       ∃ w0,
         (hook_completion (afterHook host hook res d w0) = Normal tt
          ∧ ∃ post' : list Event,
              post = AfterHookReturned hook d
                       (mutated_in_place d (hook_object (afterHook host hook res d w0)))
                     :: post')
         ∨ (∃ e, hook_completion (afterHook host hook res d w0) = Throw e
                 ∧ post = [AfterHookThrew hook e])).
Proof.
  rewrite !call_request. split; [|split; [|split]].
  - intros Hquiet. rewrite request_before_hooks_called.
    apply (run_before_hooks_called (beforeHooks (addBeforeHook this hook))).
    intros h e Hin. apply (Hquiet h e). by apply before_events_in_request.
  - intros res Hres Hquiet.
    by rewrite (request_after_hooks_called _ _ _ _ _ Hres Hquiet).
  - intros pre post url o. apply request_before_hook_run.
  - intros pre post res d. apply request_after_hook_run.
Qed.

(** ** Where a call stops *)

Lemma run_before_hooks_threw_last hooks url options w h e :
  BeforeHookThrew h e ∈ events (run_before_hooks host hooks url options w) →
  ∃ pre : list Event,
    events (run_before_hooks host hooks url options w) = pre ++ [BeforeHookThrew h e].
Proof.
  revert options w. induction hooks as [|h0 hooks IH]; intros options w; simpl.
  - by intros ?%elem_of_nil.
  - unfold bind, call_before_hook.
    destruct (hook_completion (beforeHook host h0 url options w)); simpl;
      rewrite !elem_of_cons, ?elem_of_nil.
    + intros [[=]|[[=]|Hin]]. destruct (IH _ _ Hin) as [pre ->].
      by exists (BeforeHookCalled h0 url options
                 :: BeforeHookReturned h0 options
                      (hook_object (beforeHook host h0 url options w)) :: pre).
    + intros [[=]|[[= -> ->]|[]]]. by exists [BeforeHookCalled h0 url options].
Qed.

Lemma run_before_hooks_throw_event hooks url options w e :
  outcome (run_before_hooks host hooks url options w) = Throw e →
  ∃ h, BeforeHookThrew h e ∈ events (run_before_hooks host hooks url options w).
Proof.
  revert options w. induction hooks as [|h0 hooks IH]; intros options w; simpl.
  - done.
  - unfold bind, call_before_hook.
    destruct (hook_completion (beforeHook host h0 url options w)); simpl.
    + intros [h Hin]%IH. exists h. rewrite !elem_of_cons. by right; right.
    + intros [= ->]. exists h0. rewrite !elem_of_cons. right; by left.
Qed.

Lemma run_after_hooks_throw_event hooks res data w e :
  outcome (run_after_hooks host hooks res data w) = Throw e →
  ∃ h, AfterHookThrew h e ∈ events (run_after_hooks host hooks res data w).
Proof.
  revert data w. induction hooks as [|h0 hooks IH]; intros data w; simpl.
  - done.
  - unfold bind, call_after_hook.
    destruct (hook_completion (afterHook host h0 res data w)); simpl.
    + intros [h Hin]%IH. exists h. rewrite !elem_of_cons. by right; right.
    + intros [= ->]. exists h0. rewrite !elem_of_cons. right; by left.
Qed.

(** X9. When a before-hook throws, the call stops there: that throw is
    the last thing that happens, the call throws that error, [fetch] is
    never called and no after-hook runs. *)
Theorem before_hook_throw_stops v this path options w h e :
  BeforeHookThrew h e ∈ events (call host v this path options w) →
  outcome (call host v this path options w) = Throw e
  ∧ dispatched (events (call host v this path options w)) = []
  ∧ after_hooks_called (events (call host v this path options w)) = []
  ∧ ∃ pre : list Event,
      events (call host v this path options w) = pre ++ [BeforeHookThrew h e].
Proof.
  rewrite call_request. intros Hin.
  assert (BeforeHookThrew h e
            ∈ events (run_before_hooks host (beforeHooks this) (baseUrl this +:+ path)
                        (initial_options this (verb_options v options)) w)) as Hb.
  { destruct (request_events this path (verb_options v options) w)
      as (tail & Hev & Hkind & _).
    rewrite Hev in Hin. apply elem_of_app in Hin as [Hin|Hin]; [done|].
    by apply Hkind in Hin. }
  pose proof (run_before_hooks_threw _ _ _ _ _ _ Hb) as Hout.
  pose proof (run_before_hooks_threw_last _ _ _ _ _ _ Hb) as Hlast.
  pose proof (run_before_hooks_events (beforeHooks this) (baseUrl this +:+ path)
                (initial_options this (verb_options v options)) w) as Hkind.
  rewrite request_run. simpl. rewrite Hout. simpl.
  split; [done|]. split; [|split; [|done]].
  - apply dispatched_none. intros ev url o Hev ->. by apply Hkind in Hev.
  - apply after_hooks_called_none. intros ev Hev. apply Hkind in Hev. by destruct ev.
Qed.

(** X10. When [fetch] throws, the call stops there: it throws that
    error, the body is never parsed and no after-hook runs; what came
    before the dispatch is the before-hooks only. *)
Theorem fetch_throw_stops v this path options w e :
  FetchThrew e ∈ events (call host v this path options w) →
  outcome (call host v this path options w) = Throw e
  ∧ after_hooks_called (events (call host v this path options w)) = []
  ∧ (∀ e', JsonRejected e' ∉ events (call host v this path options w))
  ∧ ∃ (pre : list Event) url sent,
      events (call host v this path options w)
        = pre ++ [FetchCalled url sent; FetchThrew e]
      ∧ ∀ ev, ev ∈ pre → before_event ev = true.
Proof.
  rewrite call_request, request_run. simpl.
  destruct (run_before_hooks host (beforeHooks this) (baseUrl this +:+ path)
              (initial_options this (verb_options v options)) w)
    as [[hooked|e0] w0 evb] eqn:Hb; simpl.
  - assert (Hkind : ∀ ev, ev ∈ evb → before_event ev = true).
    { intros ev Hin. eapply run_before_hooks_events. by rewrite Hb. }
    destruct (fetch host _ _ w0) as [[res|e1] w1]; simpl.
    + intros Hin. split_event Hin; close_event.
    + intros Hin. split_event Hin; try close_event.
      injection Hin as ->. split; [done|]. split; [|split].
      * apply after_hooks_called_none. intros ev Hev.
        split_event Hev; subst; try done.
        apply Hkind in Hev. by destruct ev.
      * intros e' Hev. split_event Hev; close_event.
      * by eexists evb, _, _.
  - intros Hin.
    assert (before_event (FetchThrew e) = true); [|done].
    eapply run_before_hooks_events. by rewrite Hb.
Qed.

(** X11. A call returns only for a response whose [ok] is true: the
    envelope's status and headers are that response's, and no hook and
    no [fetch] threw on the way. *)
Theorem success_implies_ok v this path options w envelope :
  outcome (call host v this path options w) = Normal envelope →
  ∃ res,
    FetchResolved res ∈ events (call host v this path options w)
    ∧ res_ok res = true
    ∧ env_status envelope = res_status res
    ∧ env_headers envelope = res_headers res
    ∧ ∀ e, ¬ host_threw e (events (call host v this path options w)).
Proof.
  rewrite call_request. intros Hout.
  assert (Hnone : ∀ e, ¬ host_threw e
                        (events (request host this path (verb_options v options) w))).
  { intros e Hthrew%host_error_propagates. congruence. }
  revert Hout Hnone. rewrite request_run. simpl.
  destruct (outcome (run_before_hooks _ _ _ _ _)) as [hooked|e0]; simpl; [|done].
  destruct (fetch host _ _ _) as [[res|e1] w1]; simpl; [|done].
  destruct (outcome (run_after_hooks _ _ _ _ _)) as [data|e2]; [|done].
  unfold classification. destruct (res_ok res) eqn:Hok; [|done].
  intros [= <-] Hnone. exists res. split; [|done].
  rewrite elem_of_app, !elem_of_cons. right; right; by left.
Qed.

(** X12. An error a call throws that no hook and no [fetch] threw is
    the pipeline's own: the response was received with [ok] false, and
    the error is a FetcherError carrying its status text, status and
    headers and a defined [data], so [parseError] returns its record. *)
Theorem pipeline_error_is_rich v this path options w e :
  outcome (call host v this path options w) = Throw e →
  ¬ host_threw e (events (call host v this path options w)) →
  ∃ res data,
    FetchResolved res ∈ events (call host v this path options w)
    ∧ res_ok res = false
    ∧ e = IsFetcherError (mkFetcherError (res_statusText res) (res_status res)
                                         (Some data) (Some (res_headers res)))
    ∧ parseError e = Some (mkParsedError (res_statusText res) (res_status res)
                                         (Some data) (Some (res_headers res))).
Proof.
  rewrite call_request, request_run. simpl.
  pose proof (run_before_hooks_throw_event (beforeHooks this) (baseUrl this +:+ path)
                (initial_options this (verb_options v options)) w) as Hbt.
  destruct (run_before_hooks host (beforeHooks this) (baseUrl this +:+ path)
              (initial_options this (verb_options v options)) w)
    as [[hooked|e0] w0 evb]; simpl in *.
  - destruct (fetch host _ _ w0) as [[res|e1] w1]; simpl.
    + pose proof (run_after_hooks_throw_event (afterHooks this) res (body_or_null res) w1)
        as Hat.
      destruct (run_after_hooks host (afterHooks this) res (body_or_null res) w1)
        as [[data|e2] w2 eva]; simpl in *.
      * unfold classification. destruct (res_ok res) eqn:Hok; [done|].
        intros [= <-] _. exists res, data. split; [|done].
        rewrite elem_of_app, !elem_of_cons. right; right; by left.
      * intros [= ->] Hnot. exfalso. apply Hnot. right; right.
        destruct (Hat e eq_refl) as [h Hin]. exists h.
        rewrite elem_of_app, !elem_of_cons, elem_of_app. by right; right; right; right.
    + intros [= ->] Hnot. exfalso. apply Hnot. right; left.
      rewrite elem_of_app, !elem_of_cons. right; right; by left.
  - intros [= ->] Hnot. exfalso. apply Hnot. left. by apply Hbt.
Qed.

(** ** What each hook is handed *)

Lemma run_before_hooks_head hooks url options w :
  (hooks = [] ∧ events (run_before_hooks host hooks url options w) = []
   ∧ outcome (run_before_hooks host hooks url options w) = Normal options)
  ∨ ∃ h (rest : list Event),
      events (run_before_hooks host hooks url options w)
        = BeforeHookCalled h url options :: rest.
Proof.
  destruct hooks as [|h hooks]; simpl; [by left|]. right.
  unfold bind, call_before_hook.
  destruct (hook_completion (beforeHook host h url options w)); simpl; by eexists _, _.
Qed.

Lemma run_before_hooks_chain hooks url options w (pre post : list Event) h o after :
  events (run_before_hooks host hooks url options w)
    = pre ++ BeforeHookReturned h o after :: post →
  (post = [] ∧ outcome (run_before_hooks host hooks url options w) = Normal after)
  ∨ ∃ h' (post' : list Event), post = BeforeHookCalled h' url after :: post'.
Proof.
  revert options w pre. induction hooks as [|h0 hooks IH]; intros options w pre; simpl.
  - intros Heq. by destruct pre.
  - unfold bind, call_before_hook.
    destruct (hook_completion (beforeHook host h0 url options w)); simpl.
    + destruct pre as [|ev1 [|ev2 pre]]; simpl; intros Heq.
      * discriminate Heq.
      * injection Heq as <- <- <- <- <-.
        destruct (run_before_hooks_head hooks url
                    (hook_object (beforeHook host h0 url options w))
                    (hook_world (beforeHook host h0 url options w)))
          as [(_ & -> & ->)|(h' & rest & ->)]; [by left|right; by eexists _, _].
      * injection Heq as <- <- Heq. by apply IH in Heq.
    + destruct pre as [|ev1 [|ev2 pre]]; simpl; intros Heq.
      * discriminate Heq.
      * discriminate Heq.
      * injection Heq as <- <- Heq. by destruct pre.
Qed.

(** X13. The before-hooks work on one options object, one after the
    other: the first is handed the merged options (instance defaults,
    then per-call options, with the merged headers), each later one is
    handed the options as the hook before it left them, and [fetch] is
    handed what the last one left, with the per-call headers spread
    over its headers. *)
Theorem hooks_see_earlier_changes v this path options w :
  (∀ h url o (rest : list Event),
     events (call host v this path options w) = BeforeHookCalled h url o :: rest →
     o = initial_options this (verb_options v options))
  ∧ (∀ (pre post : list Event) h o after,
       events (call host v this path options w)
         = pre ++ BeforeHookReturned h o after :: post →
       (∃ h' (post' : list Event),
          post = BeforeHookCalled h' (baseUrl this +:+ path) after :: post')
       ∨ (∃ post' : list Event,
            post = FetchCalled (baseUrl this +:+ path)
                     (final_options (verb_options v options) after) :: post')).
Proof.
  rewrite call_request, request_run. simpl.
  pose proof (run_before_hooks_head (beforeHooks this) (baseUrl this +:+ path)
                (initial_options this (verb_options v options)) w) as Hhead.
  pose proof (run_before_hooks_chain (beforeHooks this) (baseUrl this +:+ path)
                (initial_options this (verb_options v options)) w) as Hchain.
  destruct (run_before_hooks host (beforeHooks this) (baseUrl this +:+ path)
              (initial_options this (verb_options v options)) w)
    as [[hooked|e0] w0 evb]; simpl in *.
  - destruct (fetch host _ _ w0) as [[res|e1] w1]; simpl; split.
    + intros h url o rest Heq.
      destruct Hhead as [(_ & -> & _)|(h' & rest' & ->)]; [discriminate Heq|].
      by injection Heq as _ _ <- _.
    + intros pre post h o after Heq.
      apply split_in_prefix in Heq as (post1 & Heq & ->).
      2: { intros Hin. split_event Hin; close_event. }
      apply Hchain in Heq as [[-> [= ->]]|(h' & post' & ->)].
      * right. by eexists.
      * left. by eexists _, _.
    + intros h url o rest Heq.
      destruct Hhead as [(_ & -> & _)|(h' & rest' & ->)]; [discriminate Heq|].
      by injection Heq as _ _ <- _.
    + intros pre post h o after Heq.
      apply split_in_prefix in Heq as (post1 & Heq & ->).
      2: { intros Hin. split_event Hin; close_event. }
      apply Hchain in Heq as [[-> [= ->]]|(h' & post' & ->)].
      * right. by eexists.
      * left. by eexists _, _.
  - split.
    + intros h url o rest Heq.
      destruct Hhead as [(_ & -> & _)|(h' & rest' & ->)]; [discriminate Heq|].
      by injection Heq as _ _ <- _.
    + intros pre post h o after Heq.
      apply Hchain in Heq as [[_ [=]]|(h' & post' & ->)].
      left. by eexists _, _.
Qed.

Lemma run_after_hooks_args hooks res data w h res' data' :
  AfterHookCalled h res' data' ∈ events (run_after_hooks host hooks res data w) →
  res' = res
  ∧ (parsed_body_untouched (events (run_after_hooks host hooks res data w)) →
     data' = data).
Proof.
  revert data w. induction hooks as [|h0 hooks IH]; intros data w; simpl.
  - by intros ?%elem_of_nil.
  - unfold bind, call_after_hook.
    destruct (hook_completion (afterHook host h0 res data w)); simpl;
      rewrite !elem_of_cons, ?elem_of_nil.
    + intros [[= -> -> ->]|[[=]|Hin]]; [done|].
      destruct (IH _ _ Hin) as [-> Hsame]. split; [done|].
      intros Hun.
      assert (mutated_in_place data (hook_object (afterHook host h0 res data w)) = data)
        as Hkeep.
      { apply (Hun h0). rewrite !elem_of_cons. right; by left. }
      rewrite Hkeep in *. apply Hsame.
      intros h' d d' Hd. apply (Hun h'). rewrite !elem_of_cons. by right; right.
    + by intros [[= -> -> ->]|[[=]|[]]].
Qed.

(** X14. Every after-hook is handed the response [fetch] resolved to,
    and a registered hook only; when no after-hook changes the parsed
    body, every one is handed that body, null if it did not parse. *)
Theorem after_hooks_same_response v this path options w h res data :
  AfterHookCalled h res data ∈ events (call host v this path options w) →
  FetchResolved res ∈ events (call host v this path options w)
  ∧ h ∈ afterHooks this
  ∧ (parsed_body_untouched (events (call host v this path options w)) →
     data = body_or_null res).
Proof.
  rewrite call_request. intros Hin.
  split; [|split; [by eapply after_hook_called_registered|]]; revert Hin;
    rewrite request_run; simpl;
    destruct (run_before_hooks host (beforeHooks this) (baseUrl this +:+ path)
                (initial_options this (verb_options v options)) w)
      as [[hooked|e0] w0 evb] eqn:Hb; simpl;
    assert (Hkind : ∀ ev, ev ∈ evb → before_event ev = true)
      by (intros ev Hev; eapply run_before_hooks_events; by rewrite Hb);
    try (intros Hin; by apply Hkind in Hin);
    destruct (fetch host _ _ w0) as [[res'|e1] w1]; simpl;
    intros Hin; split_event Hin; try close_event;
    destruct (run_after_hooks_args _ _ _ _ _ _ _ Hin) as [-> Hsame].
  - rewrite elem_of_app, !elem_of_cons. right; right; by left.
  - intros Hun. apply Hsame. intros h' d d' Hd. apply (Hun h').
    rewrite elem_of_app, !elem_of_cons, elem_of_app. by right; right; right; right.
Qed.

End Pipeline.

(** * The hook registry *)

Lemma run_before_hooks_in_order host hooks url options w :
  (outcome (run_before_hooks host hooks url options w),
   final (run_before_hooks host hooks url options w))
  = hooks_in_order host hooks url options w.
Proof.
  revert options w. induction hooks as [|h hooks IH]; intros options w; simpl; [done|].
  unfold bind, call_before_hook.
  destruct (hook_completion (beforeHook host h url options w)); simpl; [|done].
  apply IH.
Qed.

Lemma run_before_hooks_other_code host code hook hooks url options w :
  hook ∉ hooks →
  (∀ h, h ≠ hook → code h = beforeHook host h) →
  run_before_hooks (with_beforeHook host code) hooks url options w
  = run_before_hooks host hooks url options w.
Proof.
  intros Hnot Hcode. revert options w.
  induction hooks as [|h hooks IH]; intros options w; [done|].
  apply not_elem_of_cons in Hnot as [Hne Hnot]. simpl.
  unfold bind, call_before_hook. simpl. rewrite (Hcode h) by done.
  destruct (hook_completion (beforeHook host h url options w)); simpl; [|done].
  by rewrite IH.
Qed.

Lemma run_after_hooks_other_code host code hook hooks res data w :
  hook ∉ hooks →
  (∀ h, h ≠ hook → code h = afterHook host h) →
  run_after_hooks (with_afterHook host code) hooks res data w
  = run_after_hooks host hooks res data w.
Proof.
  intros Hnot Hcode. revert data w.
  induction hooks as [|h hooks IH]; intros data w; [done|].
  apply not_elem_of_cons in Hnot as [Hne Hnot]. simpl.
  unfold bind, call_after_hook. simpl. rewrite (Hcode h) by done.
  destruct (hook_completion (afterHook host h res data w)); simpl; [|done].
  by rewrite IH.
Qed.

Lemma run_after_hooks_same_code host code hooks res data w :
  run_after_hooks (with_beforeHook host code) hooks res data w
  = run_after_hooks host hooks res data w.
Proof.
  revert data w. induction hooks as [|h hooks IH]; intros data w; [done|].
  simpl. unfold bind, call_after_hook. simpl.
  destruct (hook_completion (afterHook host h res data w)); simpl; [|done].
  by rewrite IH.
Qed.

Lemma run_before_hooks_same_code host code hooks url options w :
  run_before_hooks (with_afterHook host code) hooks url options w
  = run_before_hooks host hooks url options w.
Proof.
  revert options w. induction hooks as [|h hooks IH]; intros options w; [done|].
  simpl. unfold bind, call_before_hook. simpl.
  destruct (hook_completion (beforeHook host h url options w)); simpl; [|done].
  by rewrite IH.
Qed.

(** A call does not depend on the code of a before-hook that is not
    registered. *)
Lemma request_other_before_code host code hook this path options w :
  hook ∉ beforeHooks this →
  (∀ h, h ≠ hook → code h = beforeHook host h) →
  request (with_beforeHook host code) this path options w
  = request host this path options w.
Proof.
  intros Hnot Hcode.
  rewrite (request_run (with_beforeHook host code)), (request_run host). cbv zeta.
  rewrite (run_before_hooks_other_code host code hook) by done.
  destruct (run_before_hooks host (beforeHooks this) (baseUrl this +:+ path)
              (initial_options this options) w) as [[hooked|e] w0 evb]; simpl; [|done].
  destruct (fetch host _ _ w0) as [[res|e] w1]; simpl; [|done].
  by rewrite run_after_hooks_same_code.
Qed.

Lemma request_other_after_code host code hook this path options w :
  hook ∉ afterHooks this →
  (∀ h, h ≠ hook → code h = afterHook host h) →
  request (with_afterHook host code) this path options w
  = request host this path options w.
Proof.
  intros Hnot Hcode.
  rewrite (request_run (with_afterHook host code)), (request_run host). cbv zeta.
  rewrite run_before_hooks_same_code.
  destruct (run_before_hooks host (beforeHooks this) (baseUrl this +:+ path)
              (initial_options this options) w) as [[hooked|e] w0 evb]; simpl; [|done].
  destruct (fetch host _ _ w0) as [[res|e] w1]; simpl; [|done].
  by rewrite (run_after_hooks_other_code host code hook) by done.
Qed.

(** What a call does once the before-hooks are through, in terms of
    the host code alone. *)
Lemma request_in_order host this path options w :
  match hooks_in_order host (beforeHooks this) (baseUrl this +:+ path)
          (initial_options this options) w with
  | (Throw e, w1) =>
      outcome (request host this path options w) = Throw e
      ∧ final (request host this path options w) = w1
  | (Normal hooked, w1) =>
      dispatched (events (request host this path options w))
        = [final_options options hooked]
      ∧ match fetch host (baseUrl this +:+ path) (final_options options hooked) w1 with
        | (Throw e, w2) =>
            outcome (request host this path options w) = Throw e
            ∧ final (request host this path options w) = w2
        | (Normal res, _) =>
            FetchResolved res ∈ events (request host this path options w)
        end
  end.
Proof.
  rewrite <- run_before_hooks_in_order, request_run. cbv zeta.
  pose proof (run_before_hooks_events host (beforeHooks this) (baseUrl this +:+ path)
                (initial_options this options) w) as Hkind.
  assert (Hb : dispatched
                 (events (run_before_hooks host (beforeHooks this) (baseUrl this +:+ path)
                            (initial_options this options) w)) = []).
  { apply dispatched_none. intros ev url o Hin ->. by apply Hkind in Hin. }
  destruct (run_before_hooks host (beforeHooks this) (baseUrl this +:+ path)
              (initial_options this options) w) as [[hooked|e] w0 evb]; simpl in *; [|done].
  assert (∀ res, dispatched (json_events res) = []) as Hj.
  { intros res. unfold json_events. by destruct (res_json res). }
  assert (∀ res d w1, dispatched (events (run_after_hooks host (afterHooks this)
                                            res d w1)) = []) as Ha.
  { intros res d w1. apply dispatched_none. intros ev url o Hin ->.
    by apply run_after_hooks_events in Hin. }
  destruct (fetch host _ _ w0) as [[res|e] w1]; simpl; unfold dispatched in *;
    rewrite ?omap_app, Hb; simpl; rewrite ?omap_app, ?Hj, ?Ha; simpl.
  - split; [done|]. rewrite elem_of_app, !elem_of_cons. right; right; by left.
  - done.
Qed.

(** C9. The before-hooks of a verb call run in registration order, each
    to its end before the next one starts: the options and the world
    [fetch] is called with are those the registered hooks leave when
    run one after the other from the merged options, and a hook that
    throws ends the call there with its error.  In the call's events,
    the hooks invoked are the registered ones from the first on (all of
    them unless one throws), and each invocation is followed at once by
    what running that hook's code gives, its return with the options it
    left or its throw.  [removeBeforeHook] and [removeAfterHook] keep
    exactly the entries different from the given hook in their list and
    leave the rest of the instance as it is; they change nothing when
    the hook is absent; and no call on the resulting instance invokes
    the removed hook: whatever code stands behind it, the call is the
    same. *)
Theorem hook_order_and_removal host v this path options w hook :
  before_hooks_called (events (call host v this path options w)) `prefix_of` beforeHooks this
  ∧ (no_before_hook_threw (events (call host v this path options w)) →
     before_hooks_called (events (call host v this path options w)) = beforeHooks this)
  ∧ (∀ (pre post : list Event) h url o,
       events (call host v this path options w) = pre ++ BeforeHookCalled h url o :: post →
       ∃ w0,
         (hook_completion (beforeHook host h url o w0) = Normal tt
          ∧ ∃ post' : list Event,
              post = BeforeHookReturned h o (hook_object (beforeHook host h url o w0))
                     :: post')
         ∨ (∃ e, hook_completion (beforeHook host h url o w0) = Throw e
                 ∧ post = [BeforeHookThrew h e]))
  ∧ match hooks_in_order host (beforeHooks this) (baseUrl this +:+ path)
            (initial_options this (verb_options v options)) w with
    | (Throw e, w1) =>
        outcome (call host v this path options w) = Throw e
        ∧ final (call host v this path options w) = w1
    | (Normal hooked, w1) =>
        dispatched (events (call host v this path options w))
          = [final_options (verb_options v options) hooked]
        ∧ match fetch host (baseUrl this +:+ path)
                  (final_options (verb_options v options) hooked) w1 with
          | (Throw e, w2) =>
              outcome (call host v this path options w) = Throw e
              ∧ final (call host v this path options w) = w2
          | (Normal res, _) =>
              FetchResolved res ∈ events (call host v this path options w)
          end
    end
  ∧ removeBeforeHook this hook
    = mkFetcher (baseUrl this) (defaultOptions this)
                (filter (fun h => h ≠ hook) (beforeHooks this)) (afterHooks this)
  ∧ removeAfterHook this hook
    = mkFetcher (baseUrl this) (defaultOptions this)
                (beforeHooks this) (filter (fun h => h ≠ hook) (afterHooks this))
  ∧ (hook ∉ beforeHooks this → removeBeforeHook this hook = this)
  ∧ (hook ∉ afterHooks this → removeAfterHook this hook = this)
  ∧ (∀ url o, BeforeHookCalled hook url o
              ∉ events (call host v (removeBeforeHook this hook) path options w))
  ∧ (∀ res data, AfterHookCalled hook res data
                 ∉ events (call host v (removeAfterHook this hook) path options w))
  ∧ (∀ code, (∀ h, h ≠ hook → code h = beforeHook host h) →
       call (with_beforeHook host code) v (removeBeforeHook this hook) path options w
       = call host v (removeBeforeHook this hook) path options w)
  ∧ (∀ code, (∀ h, h ≠ hook → code h = afterHook host h) →
       call (with_afterHook host code) v (removeAfterHook this hook) path options w
       = call host v (removeAfterHook this hook) path options w).
Proof.
  rewrite !call_request.
  destruct (run_before_hooks_called host (beforeHooks this) (baseUrl this +:+ path)
              (initial_options this (verb_options v options)) w) as [Hprefix Hall].
  split; [by rewrite request_before_hooks_called|].
  split.
  { intros Hquiet. rewrite request_before_hooks_called. apply Hall.
    intros h e Hin. apply (Hquiet h e). by apply before_events_in_request. }
  split.
  { intros pre post h url o Heq.
    destruct (request_events host this path (verb_options v options) w)
      as (tail & Hev & Hkind & Hthrow).
    rewrite Hev in Heq.
    apply split_in_prefix in Heq as (post1 & Heq & ->).
    2: { intros Hin. by apply Hkind in Hin. }
    pose proof (run_before_hooks_in_order host (beforeHooks this) (baseUrl this +:+ path)
                  (initial_options this (verb_options v options)) w) as Horder.
    pose proof (run_before_hooks_threw host (beforeHooks this) (baseUrl this +:+ path)
                  (initial_options this (verb_options v options)) w h) as Hthrew.
    apply run_before_hooks_awaited_host in Heq as Hhost.
    destruct Hhost as [w0 [(Hc & post' & ->)|(e & Hc & ->)]]; exists w0.
    - left. split; [done|]. by eexists.
    - right. exists e. split; [done|].
      rewrite (Hthrow e); [done|]. apply Hthrew. rewrite Heq.
      rewrite elem_of_app, !elem_of_cons. right; right; by left. }
  split; [apply request_in_order|].
  split; [done|]. split; [done|].
  split.
  { intros Hnot. unfold removeBeforeHook. rewrite filter_absent by done. by destruct this. }
  split.
  { intros Hnot. unfold removeAfterHook. rewrite filter_absent by done. by destruct this. }
  split.
  { intros url o Hin%before_hook_called_registered. simpl in Hin.
    by apply list_elem_of_filter in Hin as [? _]. }
  split.
  { intros res data Hin%after_hook_called_registered. simpl in Hin.
    by apply list_elem_of_filter in Hin as [? _]. }
  split.
  - intros code Hcode. rewrite !call_request.
    apply (request_other_before_code host code hook); [|done].
    simpl. intros Hin. by apply list_elem_of_filter in Hin as [? _].
  - intros code Hcode. rewrite !call_request.
    apply (request_other_after_code host code hook); [|done].
    simpl. intros Hin. by apply list_elem_of_filter in Hin as [? _].
Qed.

(** * The properties on concrete runs *)

(** Settling what a concrete run's events are. *)
Ltac in_events := apply list_elem_of_In; vm_compute; tauto.

Ltac each_event Hin :=
  apply list_elem_of_In in Hin; vm_compute in Hin;
  repeat match goal with
         | H : _ ∨ _ |- _ => destruct H
         | H : False |- _ => destruct H
         | H : @eq Event _ _ |- _ => first [discriminate H | injection H; intros; subst]
         end;
  try (vm_compute; reflexivity).



Lemma verb_method_dispatched_witness :
  method_sent !! "method" = Some (VString "PUT").
Proof.
  apply (verb_method_dispatched demo_host PUT method_fetcher "/test" method_options 0%nat
           "https://test.com/test" method_sent).
  - in_events.
  - intros h o after Hin. each_event Hin.
Defined.

Lemma host_errors_propagate_witness :
  outcome (call demo_host GET keyed_fetcher "/down" no_options 0)
    = Throw (OtherError "TypeError" "Network error")
  ∧ parseError (OtherError "TypeError" "Network error") = None
  ∧ ∃ res,
      FetchResolved res ∈ events (call demo_host GET keyed_fetcher "/empty" no_options 0)
      ∧ res_json res = Throw (OtherError "SyntaxError" "Unexpected end of JSON input")
      ∧ outcome (call demo_host GET keyed_fetcher "/empty" no_options 0)
        = classification res JNull.
Proof.
  split; [|split].
  - apply (proj1 (host_errors_propagate demo_host GET keyed_fetcher "/down" no_options 0%nat)).
    right; left. in_events.
  - apply (proj1 (proj2 (host_errors_propagate demo_host GET keyed_fetcher "/down"
                           no_options 0%nat))).
  - apply (proj2 (proj2 (host_errors_propagate demo_host GET keyed_fetcher "/empty"
                           no_options 0%nat))).
    + in_events.
    + intros e' [[h Hin]|[Hin|[h Hin]]]; each_event Hin.
Defined.

Lemma hook_order_and_removal_witness :
  before_hooks_called (events (call demo_host GET method_fetcher "/test" no_options 0))
    = [1; 2]
  ∧ (dispatched (events (call demo_host GET method_fetcher "/test" no_options 0))
       = [final_options (verb_options GET no_options)
            (set_header "Content-Type" "application/x-www-form-urlencoded"
               (set_header "x-api-key" "from-hook"
                  (initial_options method_fetcher (verb_options GET no_options))))]
     ∧ FetchResolved demo_ok
         ∈ events (call demo_host GET method_fetcher "/test" no_options 0))
  ∧ (outcome (call demo_host GET blocked_fetcher "/test" no_options 0)
       = Throw (OtherError "Error" "before-hook failed")
     ∧ final (call demo_host GET blocked_fetcher "/test" no_options 0) = 2)
  ∧ removeBeforeHook method_fetcher 7 = method_fetcher
  ∧ removeAfterHook observed_fetcher 7 = observed_fetcher
  ∧ call (with_beforeHook demo_host rewired_beforeHook) GET
         (removeBeforeHook method_fetcher 1) "/test" no_options 0
    = call demo_host GET (removeBeforeHook method_fetcher 1) "/test" no_options 0.
Proof.
  pose proof (hook_order_and_removal demo_host GET method_fetcher "/test" no_options 0%nat 7)
    as (_ & Hall & _ & Horder & _ & _ & Hbefore & _).
  pose proof (hook_order_and_removal demo_host GET blocked_fetcher "/test" no_options 0%nat 7)
    as (_ & _ & _ & Hblocked & _).
  pose proof (hook_order_and_removal demo_host GET observed_fetcher "/test" no_options 0%nat 7)
    as (_ & _ & _ & _ & _ & _ & _ & Hafter & _).
  pose proof (hook_order_and_removal demo_host GET method_fetcher "/test" no_options 0%nat 1)
    as (_ & _ & _ & _ & _ & _ & _ & _ & _ & _ & Hcode & _).
  split; [|split; [|split; [|split; [|split]]]].
  - apply Hall. intros h e Hin. each_event Hin.
  - exact Horder.
  - exact Hblocked.
  - apply Hbefore. intros Hin. apply list_elem_of_In in Hin. vm_compute in Hin.
    destruct Hin as [Hin|[Hin|[]]]; discriminate Hin.
  - apply Hafter. intros Hin. apply list_elem_of_In in Hin. vm_compute in Hin.
    destruct Hin as [Hin|[Hin|[]]]; discriminate Hin.
  - apply Hcode. intros h Hne. unfold rewired_beforeHook. by case_decide.
Defined.



(** C4, as stated, fails: [ok] is true and the body does not parse, yet
    the call throws, because an after-hook did. *)
Lemma unparseable_body_counterexample :
  FetchResolved demo_empty
    ∈ events (call demo_host GET failing_fetcher "/empty" no_options 0)
  ∧ res_ok demo_empty = true
  ∧ res_json demo_empty = Throw (OtherError "SyntaxError" "Unexpected end of JSON input")
  ∧ outcome (call demo_host GET failing_fetcher "/empty" no_options 0)
    = Throw (OtherError "Error" "after-hook failed")
  ∧ (∀ envelope : FetcherResponse,
       outcome (call demo_host GET failing_fetcher "/empty" no_options 0)
       ≠ Normal envelope).
Proof. split; [in_events|]. repeat split. intros envelope. discriminate. Qed.

Lemma unparseable_body_is_null_witness :
  outcome (call demo_host GET observed_fetcher "/empty" no_options 0)
  = Normal (mkFetcherResponse JNull 200 []).
Proof.
  apply (unparseable_body_is_null demo_host GET observed_fetcher "/empty" no_options 0%nat
           demo_empty (OtherError "SyntaxError" "Unexpected end of JSON input")).
  - in_events.
  - reflexivity.
  - reflexivity.
  - intros h e Hin. each_event Hin.
Defined.

(** C7, as stated, fails: an after-hook that throws turns a returned
    envelope into a thrown error, and one that writes to the parsed
    body changes the envelope's data. *)
Lemma after_hooks_counterexample :
  outcome (call demo_host GET (without_after_hooks failing_fetcher) "/test" no_options 0)
    = Normal (mkFetcherResponse (JObject [("value", JString "12345")]) 200
                                [("content-type", "application/json")])
  ∧ outcome (call demo_host GET failing_fetcher "/test" no_options 0)
    = Throw (OtherError "Error" "after-hook failed")
  ∧ outcome (call demo_host GET patching_fetcher "/test" no_options 0)
    = Normal (mkFetcherResponse (JObject [("value", JString "patched")]) 200
                                [("content-type", "application/json")]).
Proof. repeat split. Qed.

Lemma quiet_after_hooks_keep_outcome_witness :
  outcome (call demo_host GET observed_fetcher "/missing" no_options 0)
  = outcome (call demo_host GET (without_after_hooks observed_fetcher) "/missing"
               no_options 0).
Proof.
  apply (quiet_after_hooks_keep_outcome demo_host GET observed_fetcher "/missing"
           no_options 0%nat).
  - intros h e Hin. each_event Hin.
  - intros h d d' Hin. each_event Hin.
Defined.

(** C8, as stated, fails: hooks 2 and 1 are registered, the response
    is received, and hook 1 is never invoked, because hook 2 threw. *)
Lemma after_hooks_invocation_counterexample :
  afterHooks failing_fetcher = [2; 1]
  ∧ FetchResolved demo_ok
      ∈ events (call demo_host GET failing_fetcher "/test" no_options 0)
  ∧ map (fun c => c.1.1)
        (after_hooks_called (events (call demo_host GET failing_fetcher "/test"
                                          no_options 0)))
    = [2].
Proof. split; [done|]. split; [in_events|]. vm_compute. reflexivity. Qed.

Lemma after_hooks_invocation_witness :
  (∃ (pre post : list Event) (data : Json),
     events (call demo_host GET observed_fetcher "/missing" no_options 0)
       = pre ++ FetchResolved demo_not_found :: json_events demo_not_found ++ post
     ∧ after_hooks_called pre = []
     ∧ map (fun c => c.1.1) (after_hooks_called post) = [1; 4]
     ∧ outcome (call demo_host GET observed_fetcher "/missing" no_options 0)
       = classification demo_not_found data
     ∧ (parsed_body_untouched
          (events (call demo_host GET observed_fetcher "/missing" no_options 0)) →
        data = body_or_null demo_not_found
        ∧ after_hooks_called post
          = map (fun h => (h, demo_not_found, body_or_null demo_not_found)) [1; 4]))
  ∧ (∀ (before after : list Event) h res' d,
       events (call demo_host GET observed_fetcher "/missing" no_options 0)
         = before ++ AfterHookCalled h res' d :: after →
       ∃ w0 (rest : list Event),
         hook_completion (demo_afterHook h res' d w0) = Normal tt
         ∧ after = AfterHookReturned h d
                     (mutated_in_place d (hook_object (demo_afterHook h res' d w0)))
                   :: rest).
Proof.
  apply (after_hooks_invocation demo_host GET observed_fetcher "/missing" no_options 0%nat
           demo_not_found).
  - in_events.
  - intros h e Hin. each_event Hin.
Defined.



(** C6, as stated, fails: the instance default "content-type" and the
    injected "Content-Type" are the same header name up to letter case,
    and the headers handed to [fetch] hold both entries. *)
Lemma header_merge_counterexample :
  dispatched (events (call demo_host GET lower_case_fetcher "/test" no_options 0))
    = [lower_case_sent]
  ∧ same_header_name "content-type" "Content-Type" = true
  ∧ header "content-type" lower_case_sent = Some (Text "text/plain")
  ∧ header "Content-Type" lower_case_sent = Some (Text "application/json")
  ∧ size (spread_headers (lower_case_sent !! "headers")) = 2.
Proof. repeat split; vm_compute; reflexivity. Qed.

Lemma header_merge_exact_keys_witness :
  ∃ hooked,
    outcome (run_before_hooks demo_host (beforeHooks keyed_fetcher)
               (baseUrl keyed_fetcher +:+ "/test")
               (initial_options keyed_fetcher (verb_options GET keyed_options)) 0)
      = Normal hooked
    ∧ header "x-api-key" keyed_sent
      = match header "x-api-key" keyed_options with
        | Some x => Some x
        | None => header "x-api-key" hooked
        end.
Proof.
  apply (proj2 (header_merge_exact_keys demo_host GET keyed_fetcher "/test" keyed_options
                  0%nat "x-api-key") "https://test.com/test" keyed_sent).
  in_events.
Defined.

(** ** Further properties on concrete runs *)

Lemma url_is_base_plus_path_witness :
  "https://test.com/test" = baseUrl keyed_fetcher +:+ "/test".
Proof.
  apply (proj2 (url_is_base_plus_path demo_host GET keyed_fetcher "/test" keyed_options
                  0%nat) "https://test.com/test" keyed_sent).
  in_events.
Defined.

Lemma missing_baseUrl_uses_path_witness :
  "https://test.com/test" = "https://test.com/test".
Proof.
  apply (missing_baseUrl_uses_path demo_host (mkFetcherOptions ∅ NoHook (OneHook 1)) GET
           "https://test.com/test" no_options 0%nat "https://test.com/test"
           (final_options (verb_options GET no_options)
                          (initial_options bare_fetcher (verb_options GET no_options)))).
  - by left.
  - in_events.
Defined.

Lemma option_precedence_witness :
  credential_sent !! "credentials" = Some VUndefined.
Proof.
  apply (option_precedence demo_host POST credential_fetcher "/test" credential_options
           0%nat "https://test.com/test" credential_sent "credentials").
  - discriminate.
  - discriminate.
  - in_events.
  - intros h o after Hin. each_event Hin.
Defined.

Lemma baseUrl_reaches_fetch_witness :
  keyed_sent !! "baseUrl" = Some (VString "https://test.com").
Proof.
  apply (baseUrl_reaches_fetch demo_host
           (mkFetcherOptions
              {["baseUrl" := VString "https://test.com";
                "headers" := VRecord {["x-api-key" := Text "from-defaults"]}]}
              (HookArray [1]) (HookArray []))
           GET "/test" keyed_options 0%nat "https://test.com/test" keyed_sent).
  - reflexivity.
  - reflexivity.
  - in_events.
  - intros h o after Hin. each_event Hin.
Defined.

Lemma registry_algebra_witness :
  removeBeforeHook (addBeforeHook method_fetcher 7) 7 = method_fetcher
  ∧ removeAfterHook (addAfterHook observed_fetcher 7) 7 = observed_fetcher.
Proof.
  pose proof (registry_algebra method_fetcher 7 1) as (_ & _ & Hbefore & _).
  pose proof (registry_algebra observed_fetcher 7 1) as (_ & _ & _ & Hafter & _).
  split.
  - apply Hbefore. intros Hin. apply list_elem_of_In in Hin. vm_compute in Hin.
    destruct Hin as [Hin|[Hin|[]]]; discriminate Hin.
  - apply Hafter. intros Hin. apply list_elem_of_In in Hin. vm_compute in Hin.
    destruct Hin as [Hin|[Hin|[]]]; discriminate Hin.
Defined.

Lemma added_hook_runs_last_witness :
  before_hooks_called
    (events (call demo_host GET (addBeforeHook method_fetcher 1) "/test" no_options 0))
    = [1; 2; 1]
  ∧ map (fun c => c.1.1)
        (after_hooks_called
           (events (call demo_host GET (addAfterHook observed_fetcher 1) "/missing"
                         no_options 0)))
    = [1; 4; 1].
Proof.
  split.
  - apply (proj1 (added_hook_runs_last demo_host GET method_fetcher "/test" no_options
                    0%nat 1)).
    intros h e Hin. each_event Hin.
  - apply (proj1 (proj2 (added_hook_runs_last demo_host GET observed_fetcher "/missing"
                           no_options 0%nat 1)) demo_not_found).
    + in_events.
    + intros h e Hin. each_event Hin.
Defined.

Lemma single_dispatch_witness :
  ∃ sent,
    dispatched (events (call demo_host GET keyed_fetcher "/test" keyed_options 0))
    = [sent].
Proof.
  apply (single_dispatch demo_host GET keyed_fetcher "/test" keyed_options 0%nat).
  intros h e Hin. each_event Hin.
Defined.

Lemma before_hook_throw_stops_witness :
  outcome (call demo_host GET blocked_fetcher "/test" no_options 0)
    = Throw (OtherError "Error" "before-hook failed")
  ∧ dispatched (events (call demo_host GET blocked_fetcher "/test" no_options 0)) = []
  ∧ after_hooks_called (events (call demo_host GET blocked_fetcher "/test" no_options 0))
    = []
  ∧ ∃ pre : list Event,
      events (call demo_host GET blocked_fetcher "/test" no_options 0)
      = pre ++ [BeforeHookThrew 4 (OtherError "Error" "before-hook failed")].
Proof.
  apply (before_hook_throw_stops demo_host GET blocked_fetcher "/test" no_options 0%nat 4).
  in_events.
Defined.

Lemma fetch_throw_stops_witness :
  outcome (call demo_host GET keyed_fetcher "/down" no_options 0)
    = Throw (OtherError "TypeError" "Network error")
  ∧ after_hooks_called (events (call demo_host GET keyed_fetcher "/down" no_options 0))
    = []
  ∧ (∀ e', JsonRejected e' ∉ events (call demo_host GET keyed_fetcher "/down" no_options 0))
  ∧ ∃ (pre : list Event) url sent,
      events (call demo_host GET keyed_fetcher "/down" no_options 0)
        = pre ++ [FetchCalled url sent; FetchThrew (OtherError "TypeError" "Network error")]
      ∧ ∀ ev, ev ∈ pre → before_event ev = true.
Proof.
  apply (fetch_throw_stops demo_host GET keyed_fetcher "/down" no_options 0%nat).
  in_events.
Defined.

Lemma success_implies_ok_witness :
  ∃ res,
    FetchResolved res ∈ events (call demo_host GET observed_fetcher "/test" no_options 0)
    ∧ res_ok res = true
    ∧ 200%Z = res_status res
    ∧ [("content-type", "application/json")] = res_headers res
    ∧ ∀ e, ¬ host_threw e (events (call demo_host GET observed_fetcher "/test" no_options 0)).
Proof.
  apply (success_implies_ok demo_host GET observed_fetcher "/test" no_options 0%nat
           (mkFetcherResponse (JObject [("value", JString "12345")]) 200
                              [("content-type", "application/json")])).
  reflexivity.
Defined.

Lemma pipeline_error_is_rich_witness :
  ∃ res data,
    FetchResolved res ∈ events (call demo_host GET observed_fetcher "/missing" no_options 0)
    ∧ res_ok res = false
    ∧ IsFetcherError
        (mkFetcherError "Not Found" 404
           (Some (JObject [("message", JString "Not found")]))
           (Some [("content-type", "application/json")]))
      = IsFetcherError (mkFetcherError (res_statusText res) (res_status res)
                                       (Some data) (Some (res_headers res)))
    ∧ parseError
        (IsFetcherError
           (mkFetcherError "Not Found" 404
              (Some (JObject [("message", JString "Not found")]))
              (Some [("content-type", "application/json")])))
      = Some (mkParsedError (res_statusText res) (res_status res)
                            (Some data) (Some (res_headers res))).
Proof.
  apply (pipeline_error_is_rich demo_host GET observed_fetcher "/missing" no_options 0%nat).
  - reflexivity.
  - intros [[h Hin]|[Hin|[h Hin]]]; each_event Hin.
Defined.

Lemma hooks_see_earlier_changes_witness :
  (∃ h' (post' : list Event),
     drop 2 (events (call demo_host PUT method_fetcher "/test" method_options 0))
     = BeforeHookCalled h' (baseUrl method_fetcher +:+ "/test")
         (set_header "x-api-key" "from-hook"
            (initial_options method_fetcher (verb_options PUT method_options)))
       :: post')
  ∨ (∃ post' : list Event,
       drop 2 (events (call demo_host PUT method_fetcher "/test" method_options 0))
       = FetchCalled (baseUrl method_fetcher +:+ "/test")
           (final_options (verb_options PUT method_options)
              (set_header "x-api-key" "from-hook"
                 (initial_options method_fetcher (verb_options PUT method_options))))
         :: post').
Proof.
  apply (proj2 (hooks_see_earlier_changes demo_host PUT method_fetcher "/test"
                  method_options 0%nat)
           (take 1 (events (call demo_host PUT method_fetcher "/test" method_options 0%nat)))
           _ 1%nat
           (initial_options method_fetcher (verb_options PUT method_options))).
  vm_compute. reflexivity.
Defined.

Lemma after_hooks_same_response_witness :
  FetchResolved demo_not_found
    ∈ events (call demo_host GET observed_fetcher "/missing" no_options 0)
  ∧ 4 ∈ afterHooks observed_fetcher
  ∧ (parsed_body_untouched
       (events (call demo_host GET observed_fetcher "/missing" no_options 0)) →
     JObject [("message", JString "Not found")] = body_or_null demo_not_found).
Proof.
  apply (after_hooks_same_response demo_host GET observed_fetcher "/missing" no_options
           0%nat 4 demo_not_found (JObject [("message", JString "Not found")])).
  in_events.
Defined.
